(** * amazon-sp-api-sdk: the credential refresher and the call executor

    A shallow embedding of [TokenUpdater] ([NewTokenUpdater],
    [fetchNewToken], [checkAccessToken], [GetAccessToken]), of
    [NewSellingPartnerClient], which wires the refresher to its stop
    channel, and of the call executor of package [apis].

    Go values are modelled as follows.
    - [int64] and [time.Duration] are integers in [Z]; every arithmetic
      operation of the source is followed by [wrap64], the two's complement
      wrap-around of the machine.
    - A pointer to an atomic cell is an [option] of an address: [None] is
      the nil pointer.  The cells live in the store of the [World].
    - A method that can fault returns an [outcome]: a value or a run-time
      panic.  Go [error] results are ordinary values.
    - The network, the wall clock, the channels and the logger are the
      [World]; the order of the visible effects is kept in its [trace]. *)

From Stdlib Require Import Ascii.
From stdpp Require Import base numbers option list strings gmap pretty.

Local Open Scope Z_scope.
Local Open Scope string_scope.

(** ** Machine integers and durations *)

Definition wrap64 (z : Z) : Z := (z + 2 ^ 63) `mod` 2 ^ 64 - 2 ^ 63.

Definition int64_min : Z := - 2 ^ 63.
Definition int64_max : Z := 2 ^ 63 - 1.

Definition is_int64 (z : Z) : Prop := int64_min <= z <= int64_max.

Definition sub64 (a b : Z) : Z := wrap64 (a - b).
Definition mul64 (a b : Z) : Z := wrap64 (a * b).

(** [time.Second], in nanoseconds. *)
Definition Second : Z := 1000000000.

(** An instant is the number of nanoseconds since the Unix epoch. *)
Definition Time := Z.

(** [Time.Add] and [Time.Unix]; the latter rounds towards minus infinity,
    as the seconds field of a [time.Time] does. *)
Definition Time_Add (t : Time) (d : Z) : Time := t + d.
Definition Time_Unix (t : Time) : Z := wrap64 (t `div` Second).

(** ** Errors *)

(** [errors_New] stands for an error with a fixed text ([errors.New], a
    transport error, or [fmt.Errorf] without [%w]); [Errorf_w] for
    [fmt.Errorf(prefix + "%w", inner)]. *)
Inductive error : Type :=
  | errors_New (text : string)
  | Errorf_w (prefix : string) (inner : error).

Fixpoint Error (e : error) : string :=
  match e with
  | errors_New text => text
  | Errorf_w prefix inner => prefix ++ Error inner
  end.

(** [errors.Unwrap]. *)
Definition Unwrap (e : error) : option error :=
  match e with
  | errors_New _ => None
  | Errorf_w _ inner => Some inner
  end.

(** ** Dynamic values and formatting *)

(** The content of an [atomic.Value]: nothing stored yet, or the string
    the refresher stored. *)
Inductive any : Type :=
  | any_nil
  | any_string (s : string).

(** [fmt.Sprintf("%v", x)]. *)
Definition Sprintf_v (x : any) : string :=
  match x with
  | any_nil => "<nil>"
  | any_string s => s
  end.

(** ** Channels *)

Inductive chan : Type :=
  | chan_nil
  | chan_at (c : nat).

(** ** The refresher's data *)

(** [logger.Logger] is an interface of another package; a logger is taken
    to accept every call, and what it is handed goes to the [trace]. *)
Inductive Logger : Type := mkLogger (sink : nat).

Record TokenUpdaterConfig : Type := mkTokenUpdaterConfig {
  RefreshToken : string;
  ClientID : string;
  ClientSecret : string;
  cfg_Logger : Logger;
  QuitSignal : chan
}.

Record TokenUpdater : Type := mkTokenUpdater {
  accessToken : option nat;         (* *atomic.Value *)
  ExpireTimestamp : option nat;     (* *atomic.Int64 *)
  config : TokenUpdaterConfig;
  log : Logger;
  quitSignal : chan
}.

Record AccessTokenResponse : Type := mkAccessTokenResponse {
  AccessToken : string;
  resp_RefreshToken : string;
  ExpiresIn : Z;
  TokenType : string;
  resp_Error : string;
  ErrorDescription : string
}.

(** ** The world *)

(** What the token endpoint answers to one POST. *)
Inductive PostResult : Type :=
  | post_failed (err : error)
  | post_response (body : string + error) (close_err : option error).

Inductive LogLevel : Type := Info | Err.

Inductive Event : Type :=
  | EvPost (url contentType : string) (body : list (string * string))
  | EvLog (lvl : LogLevel) (format : string)
  | EvSleep (d : Z).

Record World : Type := mkWorld {
  now : Time;                       (* wall clock *)
  network : list PostResult;        (* answers to the POSTs still to come *)
  values : gmap nat any;            (* allocated atomic.Value cells *)
  int64s : gmap nat Z;              (* allocated atomic.Int64 cells *)
  chans : list (list bool);         (* per channel: values of blocked senders *)
  goroutines : list TokenUpdater;   (* receivers of the started background loops *)
  trace : list Event                (* visible effects, oldest first *)
}.

Definition set_now (n : Time) (w : World) : World :=
  mkWorld n (network w) (values w) (int64s w) (chans w) (goroutines w) (trace w).
Definition set_network (n : list PostResult) (w : World) : World :=
  mkWorld (now w) n (values w) (int64s w) (chans w) (goroutines w) (trace w).
Definition set_values (v : gmap nat any) (w : World) : World :=
  mkWorld (now w) (network w) v (int64s w) (chans w) (goroutines w) (trace w).
Definition set_int64s (v : gmap nat Z) (w : World) : World :=
  mkWorld (now w) (network w) (values w) v (chans w) (goroutines w) (trace w).
Definition set_chans (c : list (list bool)) (w : World) : World :=
  mkWorld (now w) (network w) (values w) (int64s w) c (goroutines w) (trace w).
Definition set_goroutines (g : list TokenUpdater) (w : World) : World :=
  mkWorld (now w) (network w) (values w) (int64s w) (chans w) g (trace w).
Definition emit (e : Event) (w : World) : World :=
  mkWorld (now w) (network w) (values w) (int64s w) (chans w) (goroutines w)
          (trace w ++ [e]).

(** ** Computations that may panic *)

Inductive outcome (A : Type) : Type :=
  | Ret (a : A)
  | Panic (msg : string).
Arguments Ret {A} a.
Arguments Panic {A} msg.

Definition M (A : Type) : Type := World -> outcome A * World.

Definition ret {A} (a : A) : M A := fun w => (Ret a, w).
Definition panic {A} (msg : string) : M A := fun w => (Panic msg, w).
Definition bind {A B} (c : M A) (k : A -> M B) : M B :=
  fun w => match c w with
           | (Ret a, w') => k a w'
           | (Panic msg, w') => (Panic msg, w')
           end.

(** [defer d] around [body]: [d] runs when [body] returns and also when it
    panics. *)
Definition with_defer {A} (d : M unit) (body : M A) : M A :=
  fun w => match body w with
           | (o, w') => (o, snd (d w'))
           end.

Notation "'do' x <- c ; k" := (bind c (fun x => k))
  (at level 10, x name, c at level 100, k at level 200).
Notation "c ;; k" := (bind c (fun _ => k))
  (at level 100, k at level 200, right associativity).

Definition nil_deref : string :=
  "invalid memory address or nil pointer dereference".

(** *** Primitive effects *)

Definition time_Now : M Time := fun w => (Ret (now w), w).

(** [time.Sleep d] returns at once when [d <= 0]. *)
Definition time_Sleep (d : Z) : M unit :=
  fun w => (Ret tt, set_now (now w + Z.max d 0) (emit (EvSleep d) w)).

Definition log_Infof (format : string) : M unit :=
  fun w => (Ret tt, emit (EvLog Info format) w).
Definition log_Errorf (format : string) : M unit :=
  fun w => (Ret tt, emit (EvLog Err format) w).

(** [Load] and [Swap] of [atomic.Value] and of [atomic.Int64], called
    through a pointer.  Each is one indivisible step; on the nil pointer it
    faults. *)
Definition Value_Load (p : option nat) : M any :=
  fun w => match p with
           | None => (Panic nil_deref, w)
           | Some a => match values w !! a with
                       | Some v => (Ret v, w)
                       | None => (Panic nil_deref, w)
                       end
           end.

Definition Value_Swap (p : option nat) (new : any) : M any :=
  fun w => match p with
           | None => (Panic nil_deref, w)
           | Some a => match values w !! a with
                       | Some old => (Ret old, set_values (<[a := new]> (values w)) w)
                       | None => (Panic nil_deref, w)
                       end
           end.

Definition Int64_Load (p : option nat) : M Z :=
  fun w => match p with
           | None => (Panic nil_deref, w)
           | Some a => match int64s w !! a with
                       | Some v => (Ret v, w)
                       | None => (Panic nil_deref, w)
                       end
           end.

Definition Int64_Swap (p : option nat) (new : Z) : M Z :=
  fun w => match p with
           | None => (Panic nil_deref, w)
           | Some a => match int64s w !! a with
                       | Some old => (Ret old, set_int64s (<[a := new]> (int64s w)) w)
                       | None => (Panic nil_deref, w)
                       end
           end.

(** [make(chan bool)]: a fresh unbuffered channel. *)
Definition make_chan : M chan :=
  fun w => (Ret (chan_at (length (chans w))), set_chans (chans w ++ [[]])%list w).

(** [ch <- v] as seen by the other goroutines: the sender is parked on the
    channel until some receiver takes its value.  A send on the nil channel
    parks the sender for ever and is never seen. *)
Definition chan_send (ch : chan) (v : bool) : M unit :=
  fun w => match ch with
           | chan_nil => (Ret tt, w)
           | chan_at c =>
               match chans w !! c with
               | Some q => (Ret tt, set_chans (<[c := (q ++ [v])%list]> (chans w)) w)
               | None => (Ret tt, w)
               end
           end.

(** The [case <-ch:] arm of a [select] with a [default]: it fires when a
    sender is parked on [ch]; the nil channel is never ready. *)
Definition chan_try_recv (ch : chan) : M (option bool) :=
  fun w => match ch with
           | chan_nil => (Ret None, w)
           | chan_at c =>
               match chans w !! c with
               | Some (v :: q) => (Ret (Some v), set_chans (<[c := q]> (chans w)) w)
               | _ => (Ret None, w)
               end
           end.

(** [http.Post]: the request is recorded and the next scripted answer is
    consumed; when the script is exhausted the connection fails. *)
Definition http_Post (url contentType : string) (body : list (string * string))
  : M PostResult :=
  fun w => match network w with
           | [] => (Ret (post_failed (errors_New "connection refused")),
                    emit (EvPost url contentType body) w)
           | r :: rest => (Ret r, set_network rest (emit (EvPost url contentType body) w))
           end.

(** Number of POSTs in a trace. *)
Definition is_post (e : Event) : bool :=
  match e with EvPost _ _ _ => true | _ => false end.
Definition posts (w : World) : nat := length (filter (fun e => is_post e = true) (trace w)).

(** ** The credential refresher *)

Section Refresher.

(** [json.Unmarshal] into a fresh [AccessTokenResponse]: [None] when the
    body is not JSON of that shape. *)
Variable json_Unmarshal : string -> option AccessTokenResponse.

(** The value of [int64(ExpiryDelta.Seconds())].  [ExpiryDelta] is a
    package-level [time.Duration] declared elsewhere in the package. *)
Variable ExpiryDelta_Seconds : Z.

Definition token_url : string := "https://api.amazon.com/auth/o2/token".

(** The request body: [json.Marshal] writes the keys of a map sorted. *)
Definition reqBody (t : TokenUpdater) : list (string * string) :=
  [ ("client_id", ClientID (config t));
    ("client_secret", ClientSecret (config t));
    ("grant_type", "refresh_token");
    ("refresh_token", RefreshToken (config t)) ].

(** The deferred [Body.Close()]: a failure to close is logged. *)
Definition close_body (close_err : option error) : M unit :=
  match close_err with
  | Some err => log_Errorf (Error err)
  | None => ret tt
  end.

(** The two stores of a successful fetch, in program order. *)
Definition publish_token (t : TokenUpdater) (parsedResp : AccessTokenResponse) : M unit :=
  Value_Swap (accessToken t) (any_string (AccessToken parsedResp)) ;; ret tt.

Definition publish_expiry (t : TokenUpdater) (parsedResp : AccessTokenResponse) : M unit :=
  do n <- time_Now ;
  let expireTimestamp := Time_Add n (mul64 (ExpiresIn parsedResp) Second) in
  Int64_Swap (ExpireTimestamp t) (Time_Unix expireTimestamp) ;; ret tt.

Definition fetchNewToken (t : TokenUpdater) : M (option error) :=
  do resp <- http_Post token_url "application/json" (reqBody t) ;
  match resp with
  | post_failed err => ret (Some err)
  | post_response body close_err =>
      with_defer (close_body close_err)
        match body with
        | inr err => ret (Some err)
        | inl respBodyBytes =>
            match json_Unmarshal respBodyBytes with
            | None =>
                ret (Some (errors_New
                  ("RefreshToken response parse failed. Body: " ++ respBodyBytes)))
            | Some parsedResp =>
                if decide (AccessToken parsedResp <> "") then
                  publish_token t parsedResp ;;
                  publish_expiry t parsedResp ;;
                  ret None
                else ret None
            end
        end
  end.

Definition NewTokenUpdater (config : TokenUpdaterConfig)
  : M (option TokenUpdater * option error) :=
  let t := {| accessToken := None;
              ExpireTimestamp := None;
              config := config;
              log := cfg_Logger config;
              quitSignal := QuitSignal config |} in
  do err <- fetchNewToken t ;
  match err with
  | Some err => ret (None, Some (Errorf_w "accesstoken could not be fetched: " err))
  | None => ret (Some t, None)
  end.

Definition GetAccessToken (t : TokenUpdater) : M string :=
  do v <- Value_Load (accessToken t) ;
  ret (Sprintf_v v).

Definition secondsUntilExpired (unixTimestamp : Z) : M Z :=
  do n <- time_Now ;
  let currentTimestamp := Time_Unix n in
  ret (sub64 unixTimestamp currentTimestamp).

(** One turn of the [for] loop of [checkAccessToken]. *)
Inductive turn : Type := Stop | Again.

Definition checkAccessToken_turn (t : TokenUpdater) : M turn :=
  do sig <- chan_try_recv (quitSignal t) ;
  match sig with
  | Some _ =>
      log_Infof "Received signal to stop token updates." ;;
      ret Stop
  | None =>
      do e <- Int64_Load (ExpireTimestamp t) ;
      do secondsToWait <- secondsUntilExpired e ;
      if decide (secondsToWait <= ExpiryDelta_Seconds) then
        do err <- fetchNewToken t ;
        match err with
        | Some err => log_Errorf (Error err) ;; ret Again
        | None => ret Again
        end
      else
        time_Sleep (mul64 (sub64 secondsToWait ExpiryDelta_Seconds) Second) ;;
        ret Again
  end.

(** The loop, for at most [fuel] turns: [Some tt] when it has returned,
    [None] when it is still running. *)
Fixpoint checkAccessToken (fuel : nat) (t : TokenUpdater) : M (option unit) :=
  match fuel with
  | O => ret None
  | S fuel' =>
      do r <- checkAccessToken_turn t ;
      match r with
      | Stop => ret (Some tt)
      | Again => checkAccessToken fuel' t
      end
  end.

(** [go t.checkAccessToken()]. *)
Definition RunInBackground (t : TokenUpdater) : M unit :=
  fun w => (Ret tt, set_goroutines (goroutines w ++ [t])%list w).

(** *** Vocabulary for the statements *)

(** The refresher as [NewTokenUpdater] builds it. *)
Definition fresh_updater (config : TokenUpdaterConfig) : TokenUpdater :=
  {| accessToken := None;
     ExpireTimestamp := None;
     config := config;
     log := cfg_Logger config;
     quitSignal := QuitSignal config |}.

(** The answer the next POST will get. *)
Definition next_answer (w : World) : PostResult :=
  match network w with
  | [] => post_failed (errors_New "connection refused")
  | r :: _ => r
  end.

(** The error a fetch reports for an answer of the endpoint, if any. *)
Definition answer_error (r : PostResult) : option error :=
  match r with
  | post_failed err => Some err
  | post_response (inr err) _ => Some err
  | post_response (inl body) _ =>
      match json_Unmarshal body with
      | None => Some (errors_New ("RefreshToken response parse failed. Body: " ++ body))
      | Some _ => None
      end
  end.

(** The token an answer carries: [Some] only for a body that parses and
    has a non-empty [access_token]. *)
Definition answer_token (r : PostResult) : option AccessTokenResponse :=
  match r with
  | post_response (inl body) _ =>
      match json_Unmarshal body with
      | Some parsedResp =>
          if decide (AccessToken parsedResp <> "") then Some parsedResp else None
      | None => None
      end
  | _ => None
  end.

(** [n] fetches in a row, whatever each of them returns. *)
Fixpoint fetch_times (n : nat) (t : TokenUpdater) : M unit :=
  match n with
  | O => ret tt
  | S n' => fetchNewToken t ;; fetch_times n' t
  end.

(** *** A reader beside a publishing fetch

    The loads and swaps of [sync/atomic] are sequentially consistent, so
    a run of the two goroutines is an interleaving of their atomic steps:
    the writer's two swaps, in program order, and the reader's loads. *)

Inductive op : Type := W_token | W_expiry | R_token | R_expiry.

Definition is_write (o : op) : bool :=
  match o with W_token | W_expiry => true | _ => false end.

Record Reader : Type := mkReader {
  seen_token : option any;
  seen_expiry : option Z
}.

Definition exec_op (t : TokenUpdater) (parsedResp : AccessTokenResponse)
           (o : op) (rd : Reader) : M Reader :=
  match o with
  | W_token => publish_token t parsedResp ;; ret rd
  | W_expiry => publish_expiry t parsedResp ;; ret rd
  | R_token =>
      do v <- Value_Load (accessToken t) ;
      ret {| seen_token := Some v; seen_expiry := seen_expiry rd |}
  | R_expiry =>
      do e <- Int64_Load (ExpireTimestamp t) ;
      ret {| seen_token := seen_token rd; seen_expiry := Some e |}
  end.

Fixpoint exec_schedule (t : TokenUpdater) (parsedResp : AccessTokenResponse)
         (s : list op) (rd : Reader) : M Reader :=
  match s with
  | [] => ret rd
  | o :: s' => do rd' <- exec_op t parsedResp o rd ; exec_schedule t parsedResp s' rd'
  end.

(** A schedule of one publication: the writer's steps are exactly the
    two swaps, token first; the reader's loads fall anywhere. *)
Definition schedule_of_publication (s : list op) : Prop :=
  filter (fun o => is_write o = true) s = [W_token; W_expiry].

(** What a load may return while a cell goes from [old] to [new]:
    nothing read yet, or one of the two values, whole. *)
Definition old_or_new {A : Type} (old new : A) (seen : option A) : Prop :=
  seen = None \/ seen = Some old \/ seen = Some new.

(** The writer's steps still to come determine what the cells hold. *)
Definition writes_left_ok (ws : list op) : Prop :=
  ws = [W_token; W_expiry] \/ ws = [W_expiry] \/ ws = [].

(** The expiry a publication at clock [n] stores. *)
Definition published_expiry (n : Time) (parsedResp : AccessTokenResponse) : Z :=
  Time_Unix (Time_Add n (mul64 (ExpiresIn parsedResp) Second)).

(** *** The client that owns the refresher *)

Record Config : Type := mkConfig {
  c_ClientID : string;
  c_ClientSecret : string;
  c_RefreshToken : string;
  c_IAMUserAccessKeyID : string;
  c_IAMUserSecretKey : string;
  c_Region : string;
  c_RoleArn : string;
  c_Endpoint : string;
  c_Log : Logger
}.

(** The [client] field, a fresh [http.Client], is left out. *)
Record HttpClientConfig : Type := mkHttpClientConfig {
  h_Endpoint : string;
  h_TokenUpdater : TokenUpdater;
  h_IAMUserAccessKeyID : string;
  h_IAMUserSecretKey : string;
  h_Region : string;
  h_RoleArn : string
}.

(** [NewHttpClient] and the client it builds are declared elsewhere in
    the package. *)
Variable HttpClient : Type.
Variable NewHttpClient : HttpClientConfig -> HttpClient + error.

Record SellingPartnerClient : Type := mkSellingPartnerClient {
  s_quitSignal : chan;
  Report : HttpClient
}.

(** [Close]: [s.quitSignal <- true]. *)
Definition Close (s : SellingPartnerClient) : M unit :=
  chan_send (s_quitSignal s) true.

(** The [TokenUpdaterConfig] literal names no [QuitSignal]; the field
    keeps its zero value, the nil channel.  [RunInBackground] returns
    nothing, so the error test the caller wraps around it never fires.
    [NewTokenUpdater] returns either a refresher or an error; the last
    case of the match, neither, would fault in the started loop. *)
Definition NewSellingPartnerClient (config : Config)
  : M (option SellingPartnerClient * option error) :=
  do quitSignal <- make_chan ;
  do r <- NewTokenUpdater {| RefreshToken := c_RefreshToken config;
                             ClientID := c_ClientID config;
                             ClientSecret := c_ClientSecret config;
                             cfg_Logger := c_Log config;
                             QuitSignal := chan_nil |} ;
  match r with
  | (Some t, None) =>
      RunInBackground t ;;
      let httpConfig := {| h_Endpoint := c_Endpoint config;
                           h_TokenUpdater := t;
                           h_IAMUserAccessKeyID := c_IAMUserAccessKeyID config;
                           h_IAMUserSecretKey := c_IAMUserSecretKey config;
                           h_Region := c_Region config;
                           h_RoleArn := c_RoleArn config |} in
      match NewHttpClient httpConfig with
      | inr err => ret (None, Some err)
      | inl httpClient =>
          ret (Some {| s_quitSignal := quitSignal; Report := httpClient |}, None)
      end
  | (_, Some err) => ret (None, Some err)
  | (None, None) => panic nil_deref
  end.

End Refresher.

(** ** The call executor

    The executor is known through its specification and its test
    (caller_test.go).  The [Error] and [ErrorList] records are those of
    the source; the other definitions follow the specification. *)

Module CallExecutor.

(** Error response returned when the request is unsuccessful. *)
Record Error : Type := mkError {
  Code : string;
  Message : string;
  Details : option string
}.

(** A list of error responses returned when a request is unsuccessful. *)
Record ErrorList : Type := mkErrorList {
  Errors : list Error
}.

(** Modelled from the spec: the base URL an endpoint selector resolves to;
    the value is the one the test expects for [constants.NorthAmerica]. *)
Definition NorthAmerica : string := "https://sellingpartnerapi-na.amazon.com".

(** Modelled from the spec: [Call], one request awaiting execution.  The
    query parameters are the multimap's entries in the order supplied. *)
Record Call : Type := mkCall {
  method : string;
  path : string;
  queryParams : list (string * string);
  body : option string;
  restrictedDataToken : option string;
  parseErrorListOnError : bool
}.

(** Modelled from the spec: [NewCall] and the [With...] builders. *)
Definition NewCall (method path : string) : Call :=
  {| method := method; path := path; queryParams := []; body := None;
     restrictedDataToken := None; parseErrorListOnError := false |}.

Definition WithQueryParams (params : list (string * string)) (c : Call) : Call :=
  match params with
  | [] => c
  | _ => mkCall (method c) (path c) params (body c) (restrictedDataToken c)
                (parseErrorListOnError c)
  end.

Definition WithBody (bytes : string) (c : Call) : Call :=
  if decide (bytes = "") then c
  else mkCall (method c) (path c) (queryParams c) (Some bytes)
              (restrictedDataToken c) (parseErrorListOnError c).

Definition WithRestrictedDataToken (token : string) (c : Call) : Call :=
  if decide (token = "") then c
  else mkCall (method c) (path c) (queryParams c) (body c) (Some token)
              (parseErrorListOnError c).

Definition WithParseErrorListOnError (b : bool) (c : Call) : Call :=
  mkCall (method c) (path c) (queryParams c) (body c) (restrictedDataToken c) b.

(** *** Percent-encoding *)

(** Modelled from the spec: the characters percent-encoding leaves alone
    are the unreserved ones: letters, digits, [-], [_], [.] and [~]. *)
Definition unreserved (c : Ascii.ascii) : bool :=
  let n := Ascii.N_of_ascii c in
  (((65 <=? n) && (n <=? 90)) || ((97 <=? n) && (n <=? 122))
   || ((48 <=? n) && (n <=? 57))
   || (n =? 45) || (n =? 95) || (n =? 46) || (n =? 126))%N.

Definition hex_digit (n : N) : Ascii.ascii :=
  if (n <? 10)%N then Ascii.ascii_of_N (48 + n) else Ascii.ascii_of_N (55 + n).

Definition unhex (c : Ascii.ascii) : option N :=
  let n := Ascii.N_of_ascii c in
  if ((48 <=? n) && (n <=? 57))%N then Some (n - 48)%N
  else if ((65 <=? n) && (n <=? 70))%N then Some (n - 55)%N
  else None.

Definition percent : Ascii.ascii := "%"%char.

(** Modelled from the spec: percent-encoding of one string. *)
Fixpoint percent_encode (s : string) : string :=
  match s with
  | EmptyString => EmptyString
  | String c s' =>
      if unreserved c then String c (percent_encode s')
      else String percent
             (String (hex_digit (Ascii.N_of_ascii c / 16))
                (String (hex_digit (Ascii.N_of_ascii c `mod` 16))
                   (percent_encode s')))
  end.

Fixpoint percent_decode (s : string) : option string :=
  match s with
  | EmptyString => Some EmptyString
  | String c s' =>
      if Ascii.eqb c percent then
        match s' with
        | String h (String l s'') =>
            match unhex h, unhex l, percent_decode s'' with
            | Some a, Some b, Some r => Some (String (Ascii.ascii_of_N (16 * a + b)) r)
            | _, _, _ => None
            end
        | _ => None
        end
      else option_map (String c) (percent_decode s')
  end.

Fixpoint join_with (sep : Ascii.ascii) (l : list string) : string :=
  match l with
  | [] => EmptyString
  | [x] => x
  | x :: l' => x ++ String sep (join_with sep l')
  end.

(** Modelled from the spec: the query string, [key=value] entries joined
    by [&], in the order of the entries. *)
Definition encode_entry (kv : string * string) : string :=
  percent_encode (fst kv) ++ String "="%char (percent_encode (snd kv)).

Definition encode_query (params : list (string * string)) : string :=
  join_with "&"%char (map encode_entry params).

(** Reading a query string back. *)
Fixpoint split_on (sep : Ascii.ascii) (s : string) : list string :=
  match s with
  | EmptyString => [EmptyString]
  | String c s' =>
      if Ascii.eqb c sep then EmptyString :: split_on sep s'
      else match split_on sep s' with
           | x :: xs => String c x :: xs
           | [] => [String c EmptyString]
           end
  end.

Definition decode_entry (e : string) : option (string * string) :=
  match split_on "="%char e with
  | [k; v] =>
      match percent_decode k, percent_decode v with
      | Some k', Some v' => Some (k', v')
      | _, _ => None
      end
  | _ => None
  end.

Definition decode_query (q : string) : option (list (string * string)) :=
  if decide (q = "") then Some []
  else mapM decode_entry (split_on "&"%char q).

Fixpoint occurs (c : Ascii.ascii) (s : string) : bool :=
  match s with
  | EmptyString => false
  | String c' s' => Ascii.eqb c' c || occurs c s'
  end.

(** What percent-encoding writes: unreserved characters and [%]. *)
Definition url_safe (c : Ascii.ascii) : bool := unreserved c || Ascii.eqb c percent.

Fixpoint all_chars (p : Ascii.ascii -> bool) (s : string) : bool :=
  match s with
  | EmptyString => true
  | String c s' => p c && all_chars p s'
  end.

(** *** Requests and responses *)

Record Request : Type := mkRequest {
  req_Method : string;
  req_URL : string;
  req_Header : list (string * string);
  req_Body : option string
}.

Record Response : Type := mkResponse {
  StatusCode : Z;
  resp_Body : string
}.

(** Modelled from the spec: the transport capability, [Do] and
    [GetEndpoint]. *)
Record Transport : Type := mkTransport {
  GetEndpoint : string;
  Do : Request -> Response + error
}.

(** Modelled from the spec: step 1 of [Execute], the URL. *)
Definition request_url (endpoint : string) (c : Call) : string :=
  match queryParams c with
  | [] => endpoint ++ path c
  | params => endpoint ++ path c ++ String "?"%char (encode_query params)
  end.

Section Executor.

(** The success payload type and the two JSON decoders. *)
Variable T : Type.
Variable decode_T : string -> option T.
Variable decode_ErrorList : string -> option ErrorList.

(** The name of the restricted-data-token header,
    [constants.AccessTokenHeader]. *)
Variable AccessTokenHeader : string.

(** Modelled from the spec: [CallResponse]. *)
Record CallResponse : Type := mkCallResponse {
  ResponseBody : option T;
  ResponseErrorList : option ErrorList
}.

(** Modelled from the spec: the hard errors of one call. *)
Inductive failure : Type :=
  | TransportError (err : error)
  | DecodeError (body : string)
  | StatusError (status : Z).

(** Modelled from the spec: steps 2 and 3 of [Execute]. *)
Definition build_request (endpoint : string) (c : Call) : Request :=
  {| req_Method := method c;
     req_URL := request_url endpoint c;
     req_Header :=
       (match body c with
        | Some _ => [("Content-Type", "application/json")]
        | None => []
        end ++
        match restrictedDataToken c with
        | Some token => [(AccessTokenHeader, token)]
        | None => []
        end)%list;
     req_Body := body c |}.

(** Modelled from the spec: a status code of the 2xx class is a success,
    any other one a failure. *)
Definition is_success (status : Z) : bool :=
  ((200 <=? status)%Z && (status <? 300)%Z)%bool.

(** Modelled from the spec: [Execute], steps 4 to 7. *)
Definition Execute (c : Call) (transport : Transport) : CallResponse + failure :=
  match Do transport (build_request (GetEndpoint transport) c) with
  | inr err => inr (TransportError err)
  | inl resp =>
      if is_success (StatusCode resp) then
        if decide (resp_Body resp = "") then
          inl {| ResponseBody := None; ResponseErrorList := None |}
        else
          match decode_T (resp_Body resp) with
          | Some v => inl {| ResponseBody := Some v; ResponseErrorList := None |}
          | None => inr (DecodeError (resp_Body resp))
          end
      else if parseErrorListOnError c then
        match decode_ErrorList (resp_Body resp) with
        | Some l => inl {| ResponseBody := None; ResponseErrorList := Some l |}
        | None => inr (DecodeError (resp_Body resp))
        end
      else inr (StatusError (StatusCode resp))
  end.

End Executor.

End CallExecutor.

(** ** The report filter and its query

    [GetReportFilter.GetQuery] of package [reports].  A [url.Values] is a
    map from a key to the list of its values. *)

(** [url.Values.Add]: [v[key] = append(v[key], value)]. *)
Definition Values_Add (key value : string) (v : gmap string (list string))
  : gmap string (list string) :=
  <[ key := (default [] (v !! key) ++ [value])%list ]> v.

(** [url.Values.Get]: the first value of the key, or the empty string. *)
Definition Values_Get (key : string) (v : gmap string (list string)) : string :=
  match v !! key with
  | Some (x :: _) => x
  | _ => ""
  end.

(** [strings.Join]. *)
Fixpoint strings_Join (elems : list string) (sep : string) : string :=
  match elems with
  | [] => ""
  | [x] => x
  | x :: rest => x ++ sep ++ strings_Join rest sep
  end.

(** [fmt.Sprint] of an [int]: its decimal digits, with a minus sign for a
    negative number. *)
Definition Sprint_int (n : Z) : string := pretty n.

Section ReportFilter.

(** [apis.JsonTimeISO8601] and its [String] method are declared in
    another package. *)
Variable JsonTimeISO8601 : Type.
Variable JsonTime_String : JsonTimeISO8601 -> string.

Record GetReportFilter : Type := mkGetReportFilter {
  reportTypes : list string;
  processingStatuses : list string;
  marketplaceIds : list string;
  pageSize : Z;
  createdSince : JsonTimeISO8601;
  createdUntil : JsonTimeISO8601;
  nextToken : string
}.

Definition GetQuery (f : GetReportFilter) : gmap string (list string) :=
  let q : gmap string (list string) := ∅ in
  let q := Values_Add "reportTypes" (strings_Join (reportTypes f) ",") q in
  let q := Values_Add "processingStatuses" (strings_Join (processingStatuses f) ",") q in
  let q := Values_Add "marketplaceIds" (strings_Join (marketplaceIds f) ",") q in
  let q := Values_Add "pageSize" (Sprint_int (pageSize f)) q in
  let q := Values_Add "createdSince" (JsonTime_String (createdSince f)) q in
  let q := Values_Add "createdUntil" (JsonTime_String (createdUntil f)) q in
  let q := Values_Add "nextToken" (nextToken f) q in
  q.

(** The keys [GetQuery] writes. *)
Definition query_keys : list string :=
  [ "reportTypes"; "processingStatuses"; "marketplaceIds"; "pageSize";
    "createdSince"; "createdUntil"; "nextToken" ].

End ReportFilter.

(** ** Sample data *)

(** Two bodies the token endpoint sends, and the refresher's view of
    them. *)
Definition dquote : Ascii.ascii := Ascii.ascii_of_N 34.
Definition quoted (s : string) : string := String dquote (s ++ String dquote "").

Definition token_body : string :=
  "{" ++ quoted "access_token" ++ ":" ++ quoted "Atza|fresh" ++ ","
      ++ quoted "expires_in" ++ ":3600}".

Definition denied_body : string :=
  "{" ++ quoted "error" ++ ":" ++ quoted "invalid_grant" ++ ","
      ++ quoted "error_description" ++ ":" ++ quoted "refresh token expired" ++ "}".

Definition token_response : AccessTokenResponse :=
  {| AccessToken := "Atza|fresh"; resp_RefreshToken := ""; ExpiresIn := 3600;
     TokenType := ""; resp_Error := ""; ErrorDescription := "" |}.

Definition denied_response : AccessTokenResponse :=
  {| AccessToken := ""; resp_RefreshToken := ""; ExpiresIn := 0;
     TokenType := ""; resp_Error := "invalid_grant";
     ErrorDescription := "refresh token expired" |}.

(** [json.Unmarshal] on the two sample bodies; anything else is taken not
    to parse. *)
Definition sample_Unmarshal (body : string) : option AccessTokenResponse :=
  if String.eqb body token_body then Some token_response
  else if String.eqb body denied_body then Some denied_response
  else None.

Definition sample_clock : Time := 1700000000 * Second + 250000000.

Definition sample_config : TokenUpdaterConfig :=
  {| RefreshToken := "Atzr|refresh"; ClientID := "amzn1.application-oa2-client.demo";
     ClientSecret := "secret"; cfg_Logger := mkLogger 0; QuitSignal := chan_nil |}.

(** A world with nothing allocated, and the answers still to come. *)
Definition world_with (answers : list PostResult) : World :=
  mkWorld sample_clock answers ∅ ∅ [] [] [].

(** A refresher whose two cells are allocated, at address 0 of each store,
    and the world holding them. *)
Definition allocated_updater (quit : chan) : TokenUpdater :=
  {| accessToken := Some 0%nat; ExpireTimestamp := Some 0%nat;
     config := sample_config; log := mkLogger 0; quitSignal := quit |}.

Definition allocated_world (token : any) (expiry : Z) (answers : list PostResult)
  : World :=
  mkWorld sample_clock answers {[ 0%nat := token ]} {[ 0%nat := expiry ]} [[]] [] [].

Definition sample_client_config : Config :=
  {| c_ClientID := "amzn1.application-oa2-client.demo"; c_ClientSecret := "secret";
     c_RefreshToken := "Atzr|refresh"; c_IAMUserAccessKeyID := "AKIADEMO";
     c_IAMUserSecretKey := "iam-secret"; c_Region := "us-east-1";
     c_RoleArn := "arn:aws:iam::1:role/demo";
     c_Endpoint := "https://sellingpartnerapi-na.amazon.com";
     c_Log := mkLogger 0 |}.

(** The schedule in which the reader loads both cells between the two
    swaps of the writer. *)
Definition between_the_swaps : list op := [W_token; R_token; R_expiry; W_expiry].

(** The pair a reader ends up with, once it has loaded both cells. *)
Definition observed (o : outcome Reader * World) : option (any * Z) :=
  match fst o with
  | Ret {| seen_token := Some v; seen_expiry := Some e |} => Some (v, e)
  | _ => None
  end.

(** The calls of the executor's test, and transports answering them. *)
Definition message_call : CallExecutor.Call :=
  CallExecutor.WithQueryParams [("final", "true")]
    (CallExecutor.NewCall "POST" "/message").

Definition delete_call : CallExecutor.Call :=
  CallExecutor.NewCall "DELETE" "/message/4711".

Definition answering (status : Z) (body : string) : CallExecutor.Transport :=
  {| CallExecutor.GetEndpoint := CallExecutor.NorthAmerica;
     CallExecutor.Do := fun _ => inl (CallExecutor.mkResponse status body) |}.

(** A decoder that knows no body. *)
Definition decode_nothing {A : Type} (body : string) : option A := None.

(** The error body of the executor's test and its decoding. *)
Definition oops_body : string :=
  "{" ++ quoted "errors" ++ ":[{" ++ quoted "code" ++ ":" ++ quoted "4711" ++ ","
      ++ quoted "message" ++ ":" ++ quoted "Oooops" ++ "}]}".

Definition oops_list : CallExecutor.ErrorList :=
  {| CallExecutor.Errors :=
       [ {| CallExecutor.Code := "4711"; CallExecutor.Message := "Oooops";
            CallExecutor.Details := None |} ] |}.

Definition decode_oops (body : string) : option CallExecutor.ErrorList :=
  if String.eqb body oops_body then Some oops_list else None.

(** A report filter, with the time stamps kept as their text. *)
Definition sample_filter (page : Z) : GetReportFilter string :=
  {| reportTypes := ["GET_MERCHANT_LISTINGS_ALL_DATA"; "GET_FLAT_FILE_OPEN_LISTINGS_DATA"];
     processingStatuses := ["DONE"];
     marketplaceIds := [];
     pageSize := page;
     createdSince := "2022-01-01T00:00:00Z";
     createdUntil := "2022-02-01T00:00:00Z";
     nextToken := "" |}.

(** * Properties of the credential refresher *)

(** ** Machine arithmetic *)

Lemma wrap64_id (z : Z) : is_int64 z -> wrap64 z = z.
Proof.
  unfold is_int64, int64_min, int64_max, wrap64. intros H.
  rewrite Z.mod_small; lia.
Qed.

Lemma wrap64_range (z : Z) : is_int64 (wrap64 z).
Proof.
  unfold is_int64, int64_min, int64_max, wrap64.
  pose proof (Z.mod_pos_bound (z + 2 ^ 63) (2 ^ 64)). lia.
Qed.

(** ** The trace only grows *)

Lemma posts_emit_post (w : World) url ct body :
  posts (emit (EvPost url ct body) w) = S (posts w).
Proof.
  unfold posts, emit; simpl. rewrite filter_app, length_app. simpl. lia.
Qed.

Lemma posts_emit_other (w : World) (e : Event) :
  is_post e = false -> posts (emit e w) = posts w.
Proof.
  intros He. unfold posts, emit; simpl. rewrite filter_app, length_app.
  rewrite filter_cons_False, filter_nil by (rewrite He; discriminate).
  simpl. lia.
Qed.

Section RefresherFacts.

Variable json_Unmarshal : string -> option AccessTokenResponse.
Variable ExpiryDelta_Seconds : Z.

Abbreviation fetchNewToken := (fetchNewToken json_Unmarshal).
Abbreviation NewTokenUpdater := (NewTokenUpdater json_Unmarshal).
Abbreviation checkAccessToken_turn :=
  (checkAccessToken_turn json_Unmarshal ExpiryDelta_Seconds).
Abbreviation checkAccessToken :=
  (checkAccessToken json_Unmarshal ExpiryDelta_Seconds).

Lemma posts_close_body (ce : option error) (w : World) :
  posts (snd (close_body ce w)) = posts w.
Proof. destruct ce; simpl; [apply posts_emit_other|]; reflexivity. Qed.

Lemma posts_publish_token t r w : posts (snd (publish_token t r w)) = posts w.
Proof.
  unfold publish_token, bind, Value_Swap, ret.
  destruct (accessToken t); [destruct (values w !! n)|]; reflexivity.
Qed.

Lemma posts_publish_expiry t r w : posts (snd (publish_expiry t r w)) = posts w.
Proof.
  unfold publish_expiry, bind, time_Now, Int64_Swap, ret.
  destruct (ExpireTimestamp t); [destruct (int64s w !! n)|]; reflexivity.
Qed.

(** Every call of [fetchNewToken] sends exactly one POST. *)
Lemma fetchNewToken_posts (t : TokenUpdater) (w : World) :
  posts (snd (fetchNewToken t w)) = S (posts w).
Proof.
  unfold fetchNewToken, bind, http_Post.
  set (ev := EvPost _ _ _).
  assert (Hp : forall w0, posts (emit ev w0) = S (posts w0))
    by (intros; apply posts_emit_post).
  destruct (network w) as [|[err|body ce] rest]; simpl; try apply Hp.
  unfold with_defer.
  match goal with |- context [close_body ce (snd ?x)] => idtac | _ => idtac end.
  destruct body as [bytes|err]; simpl.
  - destruct (json_Unmarshal bytes) as [r|]; simpl.
    + destruct (decide (AccessToken r <> "")); simpl.
      * unfold bind.
        match goal with |- context [publish_token t r ?w0] =>
          pose proof (posts_publish_token t r w0) as H1;
          destruct (publish_token t r w0) as [[[]|m] w1] end; simpl in *.
        -- pose proof (posts_publish_expiry t r w1) as H2.
           destruct (publish_expiry t r w1) as [[[]|m] w2]; simpl in *;
             rewrite posts_close_body, H2, H1; apply Hp.
        -- rewrite posts_close_body, H1; apply Hp.
      * rewrite posts_close_body; apply Hp.
    + rewrite posts_close_body; apply Hp.
  - rewrite posts_close_body; apply Hp.
Qed.


(** The outcome of a fetch, read off the answer it gets. *)
Lemma fetchNewToken_no_token (t : TokenUpdater) (w : World) :
  answer_token json_Unmarshal (next_answer w) = None ->
  fst (fetchNewToken t w) = Ret (answer_error json_Unmarshal (next_answer w))
  /\ values (snd (fetchNewToken t w)) = values w
  /\ int64s (snd (fetchNewToken t w)) = int64s w
  /\ now (snd (fetchNewToken t w)) = now w
  /\ chans (snd (fetchNewToken t w)) = chans w
  /\ network (snd (fetchNewToken t w)) = tail (network w).
Proof.
  unfold fetchNewToken, bind, http_Post, next_answer, answer_token, answer_error.
  destruct (network w) as [|[err|[bytes|err] ce] rest] eqn:Hn; simpl;
    unfold with_defer.
  - intros _. repeat split. exact Hn.
  - intros _. repeat split.
  - destruct (json_Unmarshal bytes) as [r|]; simpl.
    + destruct (decide (AccessToken r <> "")); [discriminate|]. simpl.
      intros _. destruct ce; repeat split.
    + intros _. destruct ce; repeat split.
  - intros _. destruct ce; repeat split.
Qed.

Lemma fetchNewToken_error_iff (t : TokenUpdater) (w : World) (err : error) :
  fst (fetchNewToken t w) = Ret (Some err)
  <-> answer_error json_Unmarshal (next_answer w) = Some err.
Proof.
  unfold fetchNewToken, bind, http_Post, next_answer, answer_error.
  destruct (network w) as [|[e|[bytes|e] ce] rest]; simpl;
    try (split; intros H; congruence).
  unfold with_defer.
  destruct (json_Unmarshal bytes) as [r|]; simpl; [|split; intros H; congruence].
  destruct (decide (AccessToken r <> "")); simpl; [|split; intros H; congruence].
  unfold bind.
  match goal with |- context [publish_token t r ?w0] =>
    destruct (publish_token t r w0) as [[[]|m] w1] end; simpl;
    [|split; intros H; congruence].
  destruct (publish_expiry t r w1) as [[[]|m] w2]; simpl;
    split; intros H; congruence.
Qed.

Lemma NewTokenUpdater_outcome (config : TokenUpdaterConfig) (w : World) :
  fst (NewTokenUpdater config w) =
    match fst (fetchNewToken (fresh_updater config) w) with
    | Ret (Some err) =>
        Ret (None, Some (Errorf_w "accesstoken could not be fetched: " err))
    | Ret None => Ret (Some (fresh_updater config), None)
    | Panic msg => Panic msg
    end
  /\ snd (NewTokenUpdater config w) = snd (fetchNewToken (fresh_updater config) w).
Proof.
  unfold NewTokenUpdater, bind. fold (fresh_updater config).
  destruct (fetchNewToken (fresh_updater config) w) as [[[err|]|m] w1];
    split; reflexivity.
Qed.

(** C5. [NewTokenUpdater] sends exactly one POST, whatever comes of it,
    and its result is decided by that one fetch: a fetch that returns an
    error [err] makes it return the nil refresher with the error
    ["accesstoken could not be fetched: "] wrapping [err], a fetch that
    returns nil makes it return the refresher and no error; the fetch
    returns an error exactly when the POST fails, the body cannot be read,
    or the body does not parse. *)
Theorem NewTokenUpdater_single_fetch (config : TokenUpdaterConfig) (w : World) :
  posts (snd (NewTokenUpdater config w)) = S (posts w)
  /\ snd (NewTokenUpdater config w) = snd (fetchNewToken (fresh_updater config) w)
  /\ fst (NewTokenUpdater config w) =
       match fst (fetchNewToken (fresh_updater config) w) with
       | Ret (Some err) =>
           Ret (None, Some (Errorf_w "accesstoken could not be fetched: " err))
       | Ret None => Ret (Some (fresh_updater config), None)
       | Panic msg => Panic msg
       end
  /\ (forall r, fst (NewTokenUpdater config w) = Ret r ->
        (fst r = None <-> exists err,
            answer_error json_Unmarshal (next_answer w) = Some err
            /\ snd r = Some (Errorf_w "accesstoken could not be fetched: " err)
            /\ Unwrap (Errorf_w "accesstoken could not be fetched: " err) = Some err)
        /\ (fst r = None <-> snd r <> None)).
Proof.
  destruct (NewTokenUpdater_outcome config w) as [Hres Hw].
  split; [rewrite Hw; apply fetchNewToken_posts|].
  split; [exact Hw|]. split; [exact Hres|].
  intros r Hr. rewrite Hres in Hr.
  pose proof (fetchNewToken_error_iff (fresh_updater config) w) as Hiff.
  destruct (fst (fetchNewToken (fresh_updater config) w)) as [[err|]|m];
    [| |discriminate]; injection Hr as <-; simpl.
  - split; [|split; [discriminate|reflexivity]].
    split; [|reflexivity]. intros _. exists err.
    split; [apply Hiff; reflexivity|]. split; reflexivity.
  - split; split; try discriminate; try congruence.
    intros (err & _ & H & _). discriminate.
Qed.

(** ** Reading the token *)

Lemma GetAccessToken_nil_cell (t : TokenUpdater) (w : World) :
  accessToken t = None -> GetAccessToken t w = (Panic nil_deref, w).
Proof. intros H. unfold GetAccessToken, bind, Value_Load. rewrite H. reflexivity. Qed.

Lemma GetAccessToken_cell (t : TokenUpdater) (w : World) (a : nat) (v : any) :
  accessToken t = Some a -> values w !! a = Some v ->
  GetAccessToken t w = (Ret (Sprintf_v v), w).
Proof.
  intros H Hv. unfold GetAccessToken, bind, Value_Load. rewrite H, Hv. reflexivity.
Qed.

(** ** A fetch on the refresher [NewTokenUpdater] builds *)

(** An answer that carries a token makes the fetch store it; the cell
    pointer of the fresh refresher is nil and the store faults. *)
Lemma fetchNewToken_fresh_faults (config : TokenUpdaterConfig) (w : World) :
  answer_token json_Unmarshal (next_answer w) <> None ->
  fst (fetchNewToken (fresh_updater config) w) = Panic nil_deref.
Proof.
  unfold fetchNewToken, bind, http_Post, next_answer, answer_token.
  destruct (network w) as [|[err|[bytes|err] ce] rest]; simpl; try congruence.
  unfold with_defer. destruct (json_Unmarshal bytes) as [r|]; simpl; [|congruence].
  destruct (decide (AccessToken r <> "")); simpl; congruence.
Qed.

Lemma NewTokenUpdater_faults (config : TokenUpdaterConfig) (w : World) :
  answer_token json_Unmarshal (next_answer w) <> None ->
  fst (NewTokenUpdater config w) = Panic nil_deref.
Proof.
  intros H. destruct (NewTokenUpdater_outcome config w) as [Hres _].
  rewrite Hres, fetchNewToken_fresh_faults by exact H. reflexivity.
Qed.

(** Whatever [NewTokenUpdater] returns has both cell pointers nil. *)
Lemma NewTokenUpdater_cells_nil (config : TokenUpdaterConfig) (w : World)
      (t : TokenUpdater) (e : option error) :
  fst (NewTokenUpdater config w) = Ret (Some t, e) ->
  accessToken t = None /\ ExpireTimestamp t = None.
Proof.
  intros H. destruct (NewTokenUpdater_outcome config w) as [Hres _].
  rewrite Hres in H.
  destruct (fst (fetchNewToken (fresh_updater config) w)) as [[err|]|m];
    try discriminate.
  injection H as <- _. split; reflexivity.
Qed.

(** ** Fetches that bring no token *)

Lemma no_token_next (w : World) :
  Forall (fun r => answer_token json_Unmarshal r = None) (network w) ->
  answer_token json_Unmarshal (next_answer w) = None.
Proof.
  unfold next_answer. intros H. destruct (network w) as [|r rest]; [reflexivity|].
  inversion H; assumption.
Qed.

Lemma fetch_times_no_token (n : nat) (t : TokenUpdater) (w : World) :
  Forall (fun r => answer_token json_Unmarshal r = None) (network w) ->
  fst (fetch_times json_Unmarshal n t w) = Ret tt
  /\ values (snd (fetch_times json_Unmarshal n t w)) = values w
  /\ int64s (snd (fetch_times json_Unmarshal n t w)) = int64s w.
Proof.
  revert w. induction n as [|n IH]; intros w Hall; simpl; [repeat split|].
  unfold bind.
  destruct (fetchNewToken_no_token t w (no_token_next w Hall))
    as (Hr & Hv & Hi & _ & _ & Hn).
  destruct (fetchNewToken t w) as [o w1]; simpl in *. subst o.
  assert (Hall1 : Forall (fun r => answer_token json_Unmarshal r = None) (network w1)).
  { rewrite Hn. destruct (network w); [constructor|]. inversion Hall; assumption. }
  destruct (IH w1 Hall1) as (H1 & H2 & H3).
  rewrite Hv in H2. rewrite Hi in H3. repeat split; assumption.
Qed.

(** C10, amended.  With the token cell allocated and never stored to, and
    every answer of the endpoint so far without a token, [GetAccessToken]
    returns the formatted unset value ["<nil>"], which has five characters
    and is not the empty string. *)
Theorem GetAccessToken_before_any_token
        (t : TokenUpdater) (a : nat) (w : World) (n : nat) :
  accessToken t = Some a ->
  values w !! a = Some any_nil ->
  Forall (fun r => answer_token json_Unmarshal r = None) (network w) ->
  fst (GetAccessToken t (snd (fetch_times json_Unmarshal n t w))) = Ret "<nil>"
  /\ String.length "<nil>" = 5%nat
  /\ "<nil>" <> "".
Proof.
  intros Ha Hv Hall.
  destruct (fetch_times_no_token n t w Hall) as (_ & Hvals & _).
  split; [|split; [reflexivity|discriminate]].
  rewrite (GetAccessToken_cell t _ a any_nil); [reflexivity|exact Ha|].
  rewrite Hvals. exact Hv.
Qed.

(** ** A fetch on allocated cells *)

(** With both cells allocated, an answer carrying a token is published:
    the token cell holds the new token, the expiry cell the instant of the
    fetch plus [expires_in] seconds, and the fetch returns nil. *)
Lemma fetchNewToken_publishes (t : TokenUpdater) (a b : nat) (v : any) (e : Z)
      (r : AccessTokenResponse) (w : World) :
  accessToken t = Some a -> ExpireTimestamp t = Some b ->
  values w !! a = Some v -> int64s w !! b = Some e ->
  answer_token json_Unmarshal (next_answer w) = Some r ->
  fst (fetchNewToken t w) = Ret None
  /\ values (snd (fetchNewToken t w)) !! a = Some (any_string (AccessToken r))
  /\ int64s (snd (fetchNewToken t w)) !! b = Some (published_expiry (now w) r).
Proof.
  intros Ha Hb Hv Hi Hr. unfold next_answer, answer_token in Hr.
  remember (fetchNewToken t w) as o eqn:Ho.
  unfold fetchNewToken, http_Post in Ho. unfold bind at 1 in Ho.
  destruct (network w) as [|[err|[bytes|err] ce] rest]; try discriminate.
  unfold with_defer in Ho.
  destruct (json_Unmarshal bytes) as [r'|]; [|discriminate].
  destruct (decide (AccessToken r' <> "")) as [Hne|]; [|discriminate].
  injection Hr as ->.
  cbv [bind publish_token publish_expiry Value_Swap Int64_Swap time_Now ret] in Ho.
  rewrite Ha, Hb in Ho. cbn [set_network emit values int64s now] in Ho.
  rewrite Hv in Ho. cbn [set_network set_values emit values int64s now] in Ho.
  rewrite Hi in Ho.
  subst o. destruct ce; cbn; rewrite !lookup_insert_eq; repeat split.
Qed.

(** ** One turn of the background loop *)

Lemma try_recv_none_same_chans (q : chan) (w w' : World) :
  chans w' = chans w ->
  chan_try_recv q w = (Ret None, w) ->
  chan_try_recv q w' = (Ret None, w').
Proof.
  unfold chan_try_recv. intros Hc. destruct q as [|c]; [reflexivity|].
  rewrite Hc. destruct (chans w !! c) as [[|v q]|]; try reflexivity.
  intros H. discriminate H.
Qed.

Lemma answer_error_no_token (r : PostResult) (err : error) :
  answer_error json_Unmarshal r = Some err -> answer_token json_Unmarshal r = None.
Proof.
  destruct r as [e|[bytes|e] ce]; simpl; try reflexivity.
  destruct (json_Unmarshal bytes); [discriminate|reflexivity].
Qed.

Lemma turn_sleeps (t : TokenUpdater) (b : nat) (e : Z) (w : World) :
  chan_try_recv (quitSignal t) w = (Ret None, w) ->
  ExpireTimestamp t = Some b -> int64s w !! b = Some e ->
  sub64 e (Time_Unix (now w)) > ExpiryDelta_Seconds ->
  checkAccessToken_turn t w =
    (Ret Again,
     snd (time_Sleep
            (mul64 (sub64 (sub64 e (Time_Unix (now w))) ExpiryDelta_Seconds) Second) w)).
Proof.
  intros Hq Hb He Hgt. unfold checkAccessToken_turn, bind at 1. rewrite Hq.
  unfold bind at 1. unfold Int64_Load. rewrite Hb, He.
  unfold bind at 1. unfold secondsUntilExpired, bind at 1, time_Now, ret at 1.
  destruct (decide (sub64 e (Time_Unix (now w)) <= ExpiryDelta_Seconds)); [lia|].
  reflexivity.
Qed.

Lemma turn_fetches (t : TokenUpdater) (b : nat) (e : Z) (w : World) :
  chan_try_recv (quitSignal t) w = (Ret None, w) ->
  ExpireTimestamp t = Some b -> int64s w !! b = Some e ->
  sub64 e (Time_Unix (now w)) <= ExpiryDelta_Seconds ->
  checkAccessToken_turn t w =
    match fetchNewToken t w with
    | (Ret (Some err), w1) => (Ret Again, emit (EvLog Err (Error err)) w1)
    | (Ret None, w1) => (Ret Again, w1)
    | (Panic msg, w1) => (Panic msg, w1)
    end.
Proof.
  intros Hq Hb He Hle. unfold checkAccessToken_turn, bind at 1. rewrite Hq.
  unfold bind at 1. unfold Int64_Load. rewrite Hb, He.
  unfold bind at 1. unfold secondsUntilExpired, bind at 1, time_Now, ret at 1.
  destruct (decide (sub64 e (Time_Unix (now w)) <= ExpiryDelta_Seconds)); [|lia].
  unfold bind at 1. destruct (fetchNewToken t w) as [[[err|]|m] w1]; reflexivity.
Qed.

Lemma turn_fetches_posts (t : TokenUpdater) (b : nat) (e : Z) (w : World) :
  chan_try_recv (quitSignal t) w = (Ret None, w) ->
  ExpireTimestamp t = Some b -> int64s w !! b = Some e ->
  sub64 e (Time_Unix (now w)) <= ExpiryDelta_Seconds ->
  posts (snd (checkAccessToken_turn t w)) = S (posts w).
Proof.
  intros Hq Hb He Hle. rewrite (turn_fetches t b e w Hq Hb He Hle).
  pose proof (fetchNewToken_posts t w) as Hp.
  destruct (fetchNewToken t w) as [[[err|]|m] w1]; simpl in *; try exact Hp.
  rewrite posts_emit_other by reflexivity. exact Hp.
Qed.


(** ** Leaving the loop *)

Lemma publish_token_chans t r w : chans (snd (publish_token t r w)) = chans w.
Proof.
  unfold publish_token, bind, Value_Swap, ret.
  destruct (accessToken t) as [a|]; [destruct (values w !! a)|]; reflexivity.
Qed.

Lemma publish_expiry_chans t r w : chans (snd (publish_expiry t r w)) = chans w.
Proof.
  unfold publish_expiry, bind, time_Now, Int64_Swap, ret.
  destruct (ExpireTimestamp t) as [b|]; [destruct (int64s w !! b)|]; reflexivity.
Qed.

Lemma close_body_chans ce w : chans (snd (close_body ce w)) = chans w.
Proof. destruct ce; reflexivity. Qed.

Lemma fetchNewToken_chans (t : TokenUpdater) (w : World) :
  chans (snd (fetchNewToken t w)) = chans w.
Proof.
  unfold fetchNewToken, bind, http_Post.
  destruct (network w) as [|[err|[bytes|err] ce] rest]; simpl; try reflexivity;
    unfold with_defer; [|rewrite close_body_chans; reflexivity].
  destruct (json_Unmarshal bytes) as [r|]; simpl;
    [|rewrite close_body_chans; reflexivity].
  destruct (decide (AccessToken r <> "")); simpl;
    [|rewrite close_body_chans; reflexivity].
  unfold bind.
  match goal with |- context [publish_token t r ?w0] =>
    pose proof (publish_token_chans t r w0) as H1;
    destruct (publish_token t r w0) as [[[]|m] w1] end; simpl in *.
  - pose proof (publish_expiry_chans t r w1) as H2.
    destruct (publish_expiry t r w1) as [[[]|m] w2]; simpl in *;
      rewrite close_body_chans; congruence.
  - rewrite close_body_chans; congruence.
Qed.

(** A stop signal waiting on the refresher's channel ends the loop at the
    top of the next turn: the signal is taken, the stop is logged, and no
    POST is sent. *)
Lemma loop_exits_on_signal (fuel : nat) (t : TokenUpdater) (c : nat)
      (v : bool) (q : list bool) (w : World) :
  quitSignal t = chan_at c ->
  chans w !! c = Some (v :: q) ->
  checkAccessToken (S fuel) t w =
    (Ret (Some tt),
     emit (EvLog Info "Received signal to stop token updates.")
          (set_chans (<[c := q]> (chans w)) w))
  /\ posts (snd (checkAccessToken (S fuel) t w)) = posts w.
Proof.
  intros Hq Hc.
  assert (Heq : checkAccessToken (S fuel) t w =
    (Ret (Some tt),
     emit (EvLog Info "Received signal to stop token updates.")
          (set_chans (<[c := q]> (chans w)) w))).
  { simpl. unfold bind at 1. unfold checkAccessToken_turn, bind at 1.
    unfold chan_try_recv. rewrite Hq, Hc. reflexivity. }
  split; [exact Heq|]. rewrite Heq. simpl.
  rewrite posts_emit_other by reflexivity. reflexivity.
Qed.

(** With the nil channel as its stop channel a turn never takes the stop
    arm, and leaves every channel as it found it. *)
Lemma turn_nil_quit (t : TokenUpdater) (w : World) :
  quitSignal t = chan_nil ->
  fst (checkAccessToken_turn t w) <> Ret Stop
  /\ chans (snd (checkAccessToken_turn t w)) = chans w.
Proof.
  intros Hq.
  cut (forall r, checkAccessToken_turn t w = r ->
                 fst r <> Ret Stop /\ chans (snd r) = chans w);
    [intros H; apply H; reflexivity|].
  intros r Hr. unfold checkAccessToken_turn, bind at 1 in Hr. rewrite Hq in Hr.
  simpl in Hr. unfold bind at 1 in Hr. unfold Int64_Load in Hr.
  destruct (ExpireTimestamp t) as [b|]; [|subst r; split; [discriminate|reflexivity]].
  destruct (int64s w !! b) as [e|]; [|subst r; split; [discriminate|reflexivity]].
  unfold bind at 1 in Hr.
  unfold secondsUntilExpired, bind at 1, time_Now, ret at 1 in Hr.
  destruct (decide (sub64 e (Time_Unix (now w)) <= ExpiryDelta_Seconds)).
  - unfold bind at 1 in Hr. pose proof (fetchNewToken_chans t w) as Hc.
    destruct (fetchNewToken t w) as [[[err|]|m] w1]; subst r; simpl in *;
      (split; [discriminate|exact Hc]).
  - subst r. split; [discriminate|reflexivity].
Qed.

Lemma loop_nil_quit (fuel : nat) (t : TokenUpdater) (w : World) :
  quitSignal t = chan_nil ->
  fst (checkAccessToken fuel t w) <> Ret (Some tt)
  /\ chans (snd (checkAccessToken fuel t w)) = chans w.
Proof.
  intros Hq. revert w. induction fuel as [|fuel IH]; intros w; simpl.
  - split; [discriminate|reflexivity].
  - unfold bind. destruct (turn_nil_quit t w Hq) as [Hne Hc].
    destruct (checkAccessToken_turn t w) as [[[|]|m] w1]; simpl in *.
    + congruence.
    + destruct (IH w1) as [H1 H2]. split; [exact H1|congruence].
    + split; [discriminate|exact Hc].
Qed.

(** ** A reader beside a publishing fetch *)

Lemma exec_schedule_invariant (t : TokenUpdater) (r : AccessTokenResponse)
      (a b : nat) (old_tok : any) (old_exp : Z) (n0 : Time) :
  accessToken t = Some a -> ExpireTimestamp t = Some b ->
  forall (s ws : list op) (w : World) (rd : Reader),
    writes_left_ok ws ->
    filter (fun o => is_write o = true) s = ws ->
    now w = n0 ->
    values w !! a = Some (match ws with
                          | W_token :: _ => old_tok
                          | _ => any_string (AccessToken r)
                          end) ->
    int64s w !! b = Some (match ws with
                          | [] => published_expiry n0 r
                          | _ => old_exp
                          end) ->
    old_or_new old_tok (any_string (AccessToken r)) (seen_token rd) ->
    old_or_new old_exp (published_expiry n0 r) (seen_expiry rd) ->
    exists rd' w',
      exec_schedule t r s rd w = (Ret rd', w')
      /\ old_or_new old_tok (any_string (AccessToken r)) (seen_token rd')
      /\ old_or_new old_exp (published_expiry n0 r) (seen_expiry rd')
      /\ values w' !! a = Some (any_string (AccessToken r))
      /\ int64s w' !! b = Some (published_expiry n0 r).
Proof.
  intros Ha Hb. induction s as [|o s IH]; intros ws w rd Hws Hf Hn Hv Hi Ht He.
  - simpl in Hf. subst ws. exists rd, w. repeat split; assumption.
  - rewrite filter_cons in Hf.
    destruct o; simpl in Hf; simpl; unfold bind at 1.
    + (* the token swap *)
      destruct Hws as [-> | [-> | ->]]; try discriminate Hf.
      injection Hf as Hf.
      unfold publish_token, bind, Value_Swap, ret. rewrite Ha, Hv.
      apply (IH [W_expiry]); simpl; auto.
      * right; left; reflexivity.
      * apply lookup_insert_eq.
    + (* the expiry swap *)
      destruct Hws as [-> | [-> | ->]]; try discriminate Hf.
      injection Hf as Hf.
      unfold publish_expiry, bind, time_Now, Int64_Swap, ret. rewrite Hb, Hi.
      apply (IH []); simpl; auto.
      * right; right; reflexivity.
      * rewrite Hn. apply lookup_insert_eq.
    + (* the reader loads the token *)
      unfold bind, Value_Load, ret. rewrite Ha, Hv.
      apply (IH ws); simpl; auto.
      destruct Hws as [-> | [-> | ->]]; [right; left|right; right|right; right];
        reflexivity.
    + (* the reader loads the expiry *)
      unfold bind, Int64_Load, ret. rewrite Hb, Hi.
      apply (IH ws); simpl; auto.
      destruct Hws as [-> | [-> | ->]]; [right; left|right; left|right; right];
        reflexivity.
Qed.

(** C1, amended.  Each cell is read whole: beside a publishing fetch, in
    every interleaving, a load of the token returns the previous or the
    new token and a load of the expiry the previous or the new expiry.
    The pair is not published as one: the token is swapped first, and a
    reader that loads both cells between the two swaps sees the new token
    with the previous expiry. *)
Theorem reader_sees_whole_values
        (t : TokenUpdater) (r : AccessTokenResponse) (a b : nat)
        (old_tok : any) (old_exp : Z) (w : World) (s : list op) :
  accessToken t = Some a ->
  ExpireTimestamp t = Some b ->
  values w !! a = Some old_tok ->
  int64s w !! b = Some old_exp ->
  schedule_of_publication s ->
  (exists rd w',
      exec_schedule t r s (mkReader None None) w = (Ret rd, w')
      /\ old_or_new old_tok (any_string (AccessToken r)) (seen_token rd)
      /\ old_or_new old_exp (published_expiry (now w) r) (seen_expiry rd)
      /\ values w' !! a = Some (any_string (AccessToken r))
      /\ int64s w' !! b = Some (published_expiry (now w) r))
  /\ fst (exec_schedule t r [W_token; R_token; R_expiry; W_expiry]
            (mkReader None None) w)
     = Ret (mkReader (Some (any_string (AccessToken r))) (Some old_exp)).
Proof.
  intros Ha Hb Hv Hi Hs. split.
  - apply (exec_schedule_invariant t r a b old_tok old_exp (now w) Ha Hb s
             [W_token; W_expiry]); simpl; auto.
    + left; reflexivity.
    + left; reflexivity.
    + left; reflexivity.
  - cbv [exec_schedule exec_op bind publish_token publish_expiry
           Value_Swap Value_Load Int64_Load Int64_Swap time_Now ret].
    rewrite Ha, Hb, Hv. cbn [set_values values int64s now].
    rewrite lookup_insert_eq.
    repeat (cbn [set_values values int64s now seen_token seen_expiry];
            rewrite Hi).
    reflexivity.
Qed.

End RefresherFacts.

(** ** The refresher on the sample answers *)

(** C10, as stated, fails: the string returned for an unset cell does not
    have four characters. *)
Lemma unset_token_not_four_characters :
  ~ (exists s : string,
        fst (GetAccessToken (allocated_updater chan_nil)
                            (allocated_world any_nil 0 [])) = Ret s
        /\ s = "<nil>" /\ String.length s = 4%nat).
Proof. intros (s & _ & -> & Hlen). discriminate Hlen. Qed.

Lemma GetAccessToken_before_any_token_witness :
  fst (GetAccessToken (allocated_updater chan_nil)
         (snd (fetch_times sample_Unmarshal 2 (allocated_updater chan_nil)
                 (allocated_world any_nil 0
                    [post_response (inl denied_body) None])))) = Ret "<nil>"
  /\ String.length "<nil>" = 5%nat
  /\ "<nil>" <> "".
Proof.
  apply (GetAccessToken_before_any_token sample_Unmarshal
           (allocated_updater chan_nil) 0%nat
           (allocated_world any_nil 0 [post_response (inl denied_body) None]) 2).
  - reflexivity.
  - reflexivity.
  - repeat constructor.
Defined.

(** C2, on the code.  The endpoint answers with an error body: the
    [access_token] field is empty and [error_description] is set.
    [fetchNewToken] leaves token and expiry as they were, and returns nil:
    the description is dropped. *)
Theorem fetchNewToken_denied_returns_nil :
  let t := allocated_updater chan_nil in
  let w := allocated_world (any_string "Atza|old") 1700000030
                           [post_response (inl denied_body) None] in
  sample_Unmarshal denied_body = Some denied_response
  /\ AccessToken denied_response = ""
  /\ ErrorDescription denied_response = "refresh token expired"
  /\ fst (fetchNewToken sample_Unmarshal t w) = Ret None
  /\ values (snd (fetchNewToken sample_Unmarshal t w)) = values w
  /\ int64s (snd (fetchNewToken sample_Unmarshal t w)) = int64s w.
Proof.
  intros t w.
  assert (Hnone : answer_token sample_Unmarshal (next_answer w) = None) by reflexivity.
  destruct (fetchNewToken_no_token sample_Unmarshal t w Hnone) as (Hr & Hv & Hi & _).
  repeat split; try assumption.
Qed.

(** C3, on the code.  [NewTokenUpdater] never allocates the two cells.  On
    an answer with a token the initial fetch faults in the token store; on
    an answer without one the refresher is returned with both pointers
    nil, and [GetAccessToken] and the first turn of the background loop
    fault on them. *)
Theorem NewTokenUpdater_leaves_cells_nil :
  fst (NewTokenUpdater sample_Unmarshal sample_config
         (world_with [post_response (inl token_body) None])) = Panic nil_deref
  /\ (let r := NewTokenUpdater sample_Unmarshal sample_config
                 (world_with [post_response (inl denied_body) None]) in
      fst r = Ret (Some (fresh_updater sample_config), None)
      /\ accessToken (fresh_updater sample_config) = None
      /\ ExpireTimestamp (fresh_updater sample_config) = None
      /\ fst (GetAccessToken (fresh_updater sample_config) (snd r)) = Panic nil_deref
      /\ fst (checkAccessToken_turn sample_Unmarshal 60
                (fresh_updater sample_config) (snd r)) = Panic nil_deref).
Proof.
  split.
  - apply NewTokenUpdater_faults. discriminate.
  - repeat split.
Qed.

(** C4, on the code.  The initial fetch is answered with the token
    ["Atza|fresh"]: the POST is sent and the answer consumed, then the
    construction faults, so no refresher exists whose [GetAccessToken]
    could return that token. *)
Theorem NewTokenUpdater_token_answer_faults :
  let r := NewTokenUpdater sample_Unmarshal sample_config
             (world_with [post_response (inl token_body) None]) in
  answer_token sample_Unmarshal (post_response (inl token_body) None)
    = Some token_response
  /\ AccessToken token_response = "Atza|fresh"
  /\ fst r = Panic nil_deref
  /\ posts (snd r) = 1%nat
  /\ network (snd r) = []
  /\ values (snd r) = ∅.
Proof. repeat split. Qed.

(** C1, as stated, fails.  The cells hold the pair (["Atza|old"],
    1700000030); a fetch publishes (["Atza|fresh"], 1700003600).  The
    reader that loads both cells between the two swaps observes the new
    token with the previous expiry, which is neither pair. *)
Lemma reader_sees_mixed_pair :
  let t := allocated_updater chan_nil in
  let w := allocated_world (any_string "Atza|old") 1700000030 [] in
  let seen := observed (exec_schedule t token_response between_the_swaps
                                      (mkReader None None) w) in
  schedule_of_publication between_the_swaps
  /\ published_expiry (now w) token_response = 1700003600
  /\ ~ (seen = Some (any_string "Atza|old", 1700000030)
        \/ seen = Some (any_string "Atza|fresh", 1700003600)).
Proof.
  intros t w seen. split; [reflexivity|]. split; [reflexivity|].
  assert (Hseen : seen = Some (any_string "Atza|fresh", 1700000030)) by reflexivity.
  rewrite Hseen. intros [H | H]; discriminate H.
Qed.

Lemma reader_sees_whole_values_witness :
  let t := allocated_updater chan_nil in
  let w := allocated_world (any_string "Atza|old") 1700000030 [] in
  fst (exec_schedule t token_response between_the_swaps (mkReader None None) w)
  = Ret (mkReader (Some (any_string "Atza|fresh")) (Some 1700000030)).
Proof.
  intros t w.
  exact (proj2 (reader_sees_whole_values t token_response 0%nat 0%nat
                  (any_string "Atza|old") 1700000030 w between_the_swaps
                  eq_refl eq_refl eq_refl eq_refl eq_refl)).
Defined.


(** C6, on the code.  [NewSellingPartnerClient] makes a stop channel and
    keeps it in the client, but builds the refresher from a configuration
    without it: the loop it starts selects on the nil channel.  [Close]
    parks its signal on the client's channel, where it stays: however long
    the loop runs, in whatever world, it does not return, and the signal
    is not taken. *)
Theorem Close_does_not_stop_the_loop :
  let r := NewSellingPartnerClient sample_Unmarshal HttpClientConfig inl
             sample_client_config
             (world_with [post_response (inl denied_body) None]) in
  exists (s : SellingPartnerClient HttpClientConfig) (t : TokenUpdater),
    fst r = Ret (Some s, None)
    /\ goroutines (snd r) = [t]
    /\ s_quitSignal _ s = chan_at 0
    /\ quitSignal t = chan_nil
    /\ chans (snd (Close _ s (snd r))) = [[true]]
    /\ forall (fuel : nat) (w : World),
         fst (checkAccessToken sample_Unmarshal 60 fuel t w) <> Ret (Some tt)
         /\ chans (snd (checkAccessToken sample_Unmarshal 60 fuel t w)) = chans w.
Proof.
  intros r. eexists. eexists.
  split; [reflexivity|]. split; [reflexivity|]. split; [reflexivity|].
  split; [reflexivity|]. split; [reflexivity|].
  intros fuel w. apply loop_nil_quit. reflexivity.
Qed.

(** ** The refresher at work on allocated cells *)

Example fetch_then_get :
  let t := allocated_updater (chan_at 0) in
  let w := allocated_world any_nil 0 [post_response (inl token_body) None] in
  let w1 := snd (fetchNewToken sample_Unmarshal t w) in
  fst (fetchNewToken sample_Unmarshal t w) = Ret None
  /\ fst (GetAccessToken t w1) = Ret "Atza|fresh"
  /\ int64s w1 !! 0%nat = Some 1700003600.
Proof. repeat split. Qed.

Example loop_sleeps_then_stops :
  let t := allocated_updater (chan_at 0) in
  let w := allocated_world (any_string "Atza|old") 1700003600 [] in
  let w1 := snd (checkAccessToken_turn sample_Unmarshal 60 t w) in
  let w2 := snd (chan_send (chan_at 0) true w1) in
  now w1 = sample_clock + 3540 * Second
  /\ fst (checkAccessToken sample_Unmarshal 60 3 t w2) = Ret (Some tt)
  /\ posts (snd (checkAccessToken sample_Unmarshal 60 3 t w2)) = 0%nat.
Proof. repeat split. Qed.

Example loop_retries_without_pause :
  let t := allocated_updater (chan_at 0) in
  let w := allocated_world (any_string "Atza|old") 1700000030
             [post_failed (errors_New "dial tcp: timeout");
              post_response (inl token_body) None] in
  let w2 := snd (checkAccessToken sample_Unmarshal 60 2 t w) in
  trace w2 = [EvPost token_url "application/json" (reqBody t);
              EvLog Err "dial tcp: timeout";
              EvPost token_url "application/json" (reqBody t)]
  /\ now w2 = now w
  /\ fst (GetAccessToken t w2) = Ret "Atza|fresh".
Proof. repeat split. Qed.

(** * More on the credential refresher *)

Section RefresherCycle.

Variable json_Unmarshal : string -> option AccessTokenResponse.
Variable ExpiryDelta_Seconds : Z.

Abbreviation fetchNewToken := (fetchNewToken json_Unmarshal).
Abbreviation NewTokenUpdater := (NewTokenUpdater json_Unmarshal).
Abbreviation checkAccessToken_turn :=
  (checkAccessToken_turn json_Unmarshal ExpiryDelta_Seconds).
Abbreviation checkAccessToken :=
  (checkAccessToken json_Unmarshal ExpiryDelta_Seconds).

(** ** What a fetch leaves behind *)

(** X1. A fetch that returns an error has changed nothing but the network
    script and the trace: token cell, expiry cell, clock and channels are
    as before, one POST was sent, and the error is the one the answer of
    the endpoint stands for. *)
Theorem fetchNewToken_error_keeps_state
        (t : TokenUpdater) (w : World) (err : error) :
  fst (fetchNewToken t w) = Ret (Some err) ->
  values (snd (fetchNewToken t w)) = values w
  /\ int64s (snd (fetchNewToken t w)) = int64s w
  /\ now (snd (fetchNewToken t w)) = now w
  /\ chans (snd (fetchNewToken t w)) = chans w
  /\ posts (snd (fetchNewToken t w)) = S (posts w)
  /\ answer_error json_Unmarshal (next_answer w) = Some err.
Proof.
  intros H. apply fetchNewToken_error_iff in H as Hans.
  destruct (fetchNewToken_no_token json_Unmarshal t w
              (answer_error_no_token json_Unmarshal _ _ Hans))
    as (_ & Hv & Hi & Hn & Hc & _).
  repeat split; try assumption. apply fetchNewToken_posts.
Qed.

Lemma publish_token_trace t r w : trace (snd (publish_token t r w)) = trace w.
Proof.
  unfold publish_token, bind, Value_Swap, ret.
  destruct (accessToken t) as [a|]; [destruct (values w !! a)|]; reflexivity.
Qed.

Lemma publish_expiry_trace t r w : trace (snd (publish_expiry t r w)) = trace w.
Proof.
  unfold publish_expiry, bind, time_Now, Int64_Swap, ret.
  destruct (ExpireTimestamp t) as [b|]; [destruct (int64s w !! b)|]; reflexivity.
Qed.

Lemma fetchNewToken_lets_out (t : TokenUpdater) (w : World) :
  trace (snd (fetchNewToken t w)) =
    (trace w ++
     EvPost "https://api.amazon.com/auth/o2/token" "application/json"
            [ ("client_id", ClientID (config t));
              ("client_secret", ClientSecret (config t));
              ("grant_type", "refresh_token");
              ("refresh_token", RefreshToken (config t)) ]
     :: match next_answer w with
        | post_response _ (Some close_err) => [EvLog Err (Error close_err)]
        | _ => []
        end)%list.
Proof.
  unfold fetchNewToken, bind, http_Post, next_answer.
  destruct (network w) as [|[err|body ce] rest]; simpl; try reflexivity.
  unfold with_defer.
  assert (Hclose : forall w0, trace w0 =
            (trace w ++ [EvPost token_url "application/json" (reqBody t)])%list ->
            trace (snd (close_body ce w0)) =
              (trace w ++ EvPost token_url "application/json" (reqBody t)
               :: match ce with
                  | Some close_err => [EvLog Err (Error close_err)]
                  | None => []
                  end)%list).
  { intros w0 H0. destruct ce; simpl; rewrite H0, <- ?app_assoc; reflexivity. }
  destruct body as [bytes|err]; simpl; [|apply Hclose; reflexivity].
  destruct (json_Unmarshal bytes) as [r|]; simpl; [|apply Hclose; reflexivity].
  destruct (decide (AccessToken r <> "")); simpl; [|apply Hclose; reflexivity].
  unfold bind.
  match goal with |- context [publish_token t r ?w0] =>
    pose proof (publish_token_trace t r w0) as H1;
    destruct (publish_token t r w0) as [[[]|m] w1] end; simpl in *.
  - pose proof (publish_expiry_trace t r w1) as H2.
    destruct (publish_expiry t r w1) as [[[]|m] w2]; simpl in *;
      apply Hclose; congruence.
  - apply Hclose; congruence.
Qed.

(** ** The clock of a fetch *)

Lemma fetchNewToken_now (t : TokenUpdater) (w : World) :
  now (snd (fetchNewToken t w)) = now w.
Proof.
  unfold fetchNewToken, bind, http_Post.
  assert (Hclose : forall ce w0, now (snd (close_body ce w0)) = now w0)
    by (intros [e|] w0; reflexivity).
  destruct (network w) as [|[err|[bytes|err] ce] rest]; simpl; try reflexivity;
    unfold with_defer; [|rewrite Hclose; reflexivity].
  destruct (json_Unmarshal bytes) as [r|]; simpl; [|rewrite Hclose; reflexivity].
  destruct (decide (AccessToken r <> "")); simpl; [|rewrite Hclose; reflexivity].
  unfold bind, publish_token, publish_expiry, bind, Value_Swap, Int64_Swap,
    time_Now, ret.
  destruct (accessToken t) as [a|]; simpl; [|rewrite Hclose; reflexivity].
  match goal with |- context [values ?w0 !! a] => destruct (values w0 !! a) end;
    simpl; [|rewrite Hclose; reflexivity].
  destruct (ExpireTimestamp t) as [b|]; simpl; [|rewrite Hclose; reflexivity].
  match goal with |- context [int64s ?w0 !! b] => destruct (int64s w0 !! b) end;
    simpl; rewrite Hclose; reflexivity.
Qed.

Lemma fetchNewToken_trace_goroutines (t : TokenUpdater) (w : World) :
  goroutines (snd (fetchNewToken t w)) = goroutines w.
Proof.
  unfold fetchNewToken, bind, http_Post.
  assert (Hclose : forall ce w0, goroutines (snd (close_body ce w0)) = goroutines w0)
    by (intros [e|] w0; reflexivity).
  destruct (network w) as [|[err|[bytes|err] ce] rest]; simpl; try reflexivity;
    unfold with_defer; [|rewrite Hclose; reflexivity].
  destruct (json_Unmarshal bytes) as [r|]; simpl; [|rewrite Hclose; reflexivity].
  destruct (decide (AccessToken r <> "")); simpl; [|rewrite Hclose; reflexivity].
  unfold bind, publish_token, publish_expiry, bind, Value_Swap, Int64_Swap,
    time_Now, ret.
  destruct (accessToken t) as [a|]; simpl; [|rewrite Hclose; reflexivity].
  match goal with |- context [values ?w0 !! a] => destruct (values w0 !! a) end;
    simpl; [|rewrite Hclose; reflexivity].
  destruct (ExpireTimestamp t) as [b|]; simpl; [|rewrite Hclose; reflexivity].
  match goal with |- context [int64s ?w0 !! b] => destruct (int64s w0 !! b) end;
    simpl; rewrite Hclose; reflexivity.
Qed.

(** X2. All a fetch lets out, on every path, also a faulting one: one
    POST to the token URL, as JSON, holding the client id, the client
    secret, the grant type [refresh_token] and the refresh token; and, when
    closing the body fails, one error line for it.  It takes no time,
    sends nothing on a channel and starts no goroutine. *)
Theorem fetchNewToken_trace (t : TokenUpdater) (w : World) :
  trace (snd (fetchNewToken t w)) =
    (trace w ++
     EvPost "https://api.amazon.com/auth/o2/token" "application/json"
            [ ("client_id", ClientID (config t));
              ("client_secret", ClientSecret (config t));
              ("grant_type", "refresh_token");
              ("refresh_token", RefreshToken (config t)) ]
     :: match next_answer w with
        | post_response _ (Some close_err) => [EvLog Err (Error close_err)]
        | _ => []
        end)%list
  /\ now (snd (fetchNewToken t w)) = now w
  /\ chans (snd (fetchNewToken t w)) = chans w
  /\ goroutines (snd (fetchNewToken t w)) = goroutines w.
Proof.
  split; [apply fetchNewToken_lets_out|].
  split; [apply fetchNewToken_now|].
  split; [apply fetchNewToken_chans|apply fetchNewToken_trace_goroutines].
Qed.

Lemma Time_Unix_small (n : Time) :
  is_int64 (n `div` Second) -> Time_Unix n = n `div` Second.
Proof. apply wrap64_id. Qed.

Lemma published_expiry_exact (n : Time) (r : AccessTokenResponse) :
  0 <= ExpiresIn r ->
  ExpiresIn r * Second <= int64_max ->
  is_int64 (n `div` Second + ExpiresIn r) ->
  published_expiry n r = n `div` Second + ExpiresIn r.
Proof.
  intros H0 Hmul Hsum. unfold published_expiry, Time_Add, Time_Unix, mul64.
  rewrite (wrap64_id (ExpiresIn r * Second)).
  - unfold Second. rewrite Z.div_add by lia. apply wrap64_id. exact Hsum.
  - revert H0 Hmul. unfold is_int64, int64_min, int64_max, Second. lia.
Qed.

(** X3. Right after a fetch that brought a token, on allocated cells, the
    expiry cell holds the Unix second of the fetch plus [expires_in], and
    the seconds the loop computes as remaining are exactly [expires_in]
    (for a non-negative [expires_in] that fits a duration). *)
Theorem fresh_token_lasts_expires_in
        (t : TokenUpdater) (a b : nat) (v : any) (e : Z)
        (r : AccessTokenResponse) (w : World) :
  accessToken t = Some a -> ExpireTimestamp t = Some b ->
  values w !! a = Some v -> int64s w !! b = Some e ->
  answer_token json_Unmarshal (next_answer w) = Some r ->
  0 <= ExpiresIn r ->
  ExpiresIn r * Second <= int64_max ->
  is_int64 (now w `div` Second) ->
  is_int64 (now w `div` Second + ExpiresIn r) ->
  int64s (snd (fetchNewToken t w)) !! b = Some (now w `div` Second + ExpiresIn r)
  /\ fst (secondsUntilExpired (now w `div` Second + ExpiresIn r)
                              (snd (fetchNewToken t w)))
     = Ret (ExpiresIn r).
Proof.
  intros Ha Hb Hv Hi Hr H0 Hmul HU Hsum.
  destruct (fetchNewToken_publishes json_Unmarshal t a b v e r w Ha Hb Hv Hi Hr)
    as (_ & _ & He).
  rewrite (published_expiry_exact _ _ H0 Hmul Hsum) in He.
  split; [exact He|].
  unfold secondsUntilExpired, bind, time_Now, ret. simpl.
  rewrite fetchNewToken_now, (Time_Unix_small _ HU). unfold sub64.
  replace (now w `div` Second + ExpiresIn r - now w `div` Second)
    with (ExpiresIn r) by lia.
  rewrite wrap64_id; [reflexivity|].
  revert H0 Hmul. unfold is_int64, int64_min, int64_max, Second. lia.
Qed.

(** ** The cycle of the loop *)

(** X4. With [remaining] seconds to the stored expiry, more than a
    non-negative delta, the loop sleeps [remaining - delta] seconds without
    a POST; when it wakes exactly [delta] seconds remain, and that turn
    fetches. *)
Theorem loop_refreshes_at_delta (t : TokenUpdater) (b : nat) (e : Z) (w : World) :
  chan_try_recv (quitSignal t) w = (Ret None, w) ->
  ExpireTimestamp t = Some b ->
  int64s w !! b = Some e ->
  is_int64 e ->
  is_int64 (now w `div` Second) ->
  is_int64 (e - now w `div` Second) ->
  0 <= ExpiryDelta_Seconds ->
  ExpiryDelta_Seconds < e - now w `div` Second ->
  (e - now w `div` Second - ExpiryDelta_Seconds) * Second <= int64_max ->
  let w1 := snd (checkAccessToken_turn t w) in
  let w2 := snd (checkAccessToken_turn t w1) in
  posts w1 = posts w
  /\ now w1 = now w + (e - now w `div` Second - ExpiryDelta_Seconds) * Second
  /\ fst (secondsUntilExpired e w1) = Ret ExpiryDelta_Seconds
  /\ posts w2 = S (posts w).
Proof.
  intros Hq Hb Hi He HU Hrem Hd0 Hgt Hfit w1 w2.
  set (U := now w `div` Second) in *.
  assert (HsubU : sub64 e (Time_Unix (now w)) = e - U).
  { rewrite (Time_Unix_small _ HU). apply wrap64_id. exact Hrem. }
  assert (Hsubd : sub64 (e - U) ExpiryDelta_Seconds = e - U - ExpiryDelta_Seconds).
  { apply wrap64_id. revert Hrem Hd0 Hgt.
    unfold is_int64, int64_min, int64_max. lia. }
  assert (Hmul : mul64 (e - U - ExpiryDelta_Seconds) Second
                 = (e - U - ExpiryDelta_Seconds) * Second).
  { apply wrap64_id. revert Hfit Hgt.
    unfold is_int64, int64_min, int64_max, Second. lia. }
  assert (Hw1 : w1 = snd (time_Sleep ((e - U - ExpiryDelta_Seconds) * Second) w)).
  { subst w1. rewrite (turn_sleeps json_Unmarshal ExpiryDelta_Seconds t b e w Hq Hb Hi)
      by (rewrite HsubU; lia).
    rewrite HsubU, Hsubd, Hmul. reflexivity. }
  assert (Hnow : now w1 = now w + (e - U - ExpiryDelta_Seconds) * Second).
  { rewrite Hw1. simpl. unfold Second. lia. }
  assert (Hunix : Time_Unix (now w1) = e - ExpiryDelta_Seconds).
  { rewrite Hnow. unfold Time_Unix, Second. rewrite Z.div_add by lia.
    fold Second. fold U.
    replace (U + (e - U - ExpiryDelta_Seconds)) with (e - ExpiryDelta_Seconds) by lia.
    apply wrap64_id. revert He HU Hd0 Hgt. unfold is_int64, int64_min, int64_max.
    lia. }
  assert (Hrem1 : sub64 e (Time_Unix (now w1)) = ExpiryDelta_Seconds).
  { rewrite Hunix. unfold sub64.
    replace (e - (e - ExpiryDelta_Seconds)) with ExpiryDelta_Seconds by lia.
    apply wrap64_id. revert Hrem Hd0 Hgt. unfold is_int64, int64_min, int64_max.
    lia. }
  assert (Hp1 : posts w1 = posts w).
  { rewrite Hw1. simpl. apply posts_emit_other. reflexivity. }
  split; [exact Hp1|]. split; [exact Hnow|]. split.
  - unfold secondsUntilExpired, bind, time_Now, ret. simpl. rewrite Hrem1.
    reflexivity.
  - subst w2. rewrite <- Hp1.
    apply (turn_fetches_posts json_Unmarshal ExpiryDelta_Seconds t b e w1).
    + apply (try_recv_none_same_chans _ w); [rewrite Hw1; reflexivity|exact Hq].
    + exact Hb.
    + rewrite Hw1. simpl. exact Hi.
    + rewrite Hrem1. lia.
Qed.

(** X14. A token that has already expired is refreshed at once: with
    the stored expiry at or before the current second and a non-negative
    delta, the turn performs a fetch and takes no time. *)
Theorem expired_token_fetches_at_once
        (t : TokenUpdater) (b : nat) (e : Z) (w : World) :
  chan_try_recv (quitSignal t) w = (Ret None, w) ->
  ExpireTimestamp t = Some b ->
  int64s w !! b = Some e ->
  is_int64 e ->
  is_int64 (now w `div` Second) ->
  is_int64 (e - now w `div` Second) ->
  e <= now w `div` Second ->
  0 <= ExpiryDelta_Seconds ->
  posts (snd (checkAccessToken_turn t w)) = S (posts w)
  /\ now (snd (checkAccessToken_turn t w)) = now w
  /\ fst (secondsUntilExpired e w) = Ret (e - now w `div` Second).
Proof.
  intros Hq Hb Hi He HU Hrem Hexp Hd.
  assert (Hsub : sub64 e (Time_Unix (now w)) = e - now w `div` Second).
  { rewrite (Time_Unix_small _ HU). apply wrap64_id. exact Hrem. }
  assert (Hle : sub64 e (Time_Unix (now w)) <= ExpiryDelta_Seconds)
    by (rewrite Hsub; lia).
  split; [apply (turn_fetches_posts json_Unmarshal ExpiryDelta_Seconds t b e w
                   Hq Hb Hi Hle)|].
  split.
  - rewrite (turn_fetches json_Unmarshal ExpiryDelta_Seconds t b e w Hq Hb Hi Hle).
    pose proof (fetchNewToken_now t w) as Hn.
    destruct (fetchNewToken t w) as [[[err|]|m] w1]; simpl in *; exact Hn.
  - unfold secondsUntilExpired, bind, time_Now, ret. simpl. rewrite Hsub.
    reflexivity.
Qed.

(** ** A failing endpoint *)

Lemma failing_next (w : World) :
  Forall (fun r => is_Some (answer_error json_Unmarshal r)) (network w) ->
  exists err, answer_error json_Unmarshal (next_answer w) = Some err.
Proof.
  unfold next_answer. intros H. destruct (network w) as [|r rest].
  - eexists; reflexivity.
  - inversion H as [|? ? [err Herr] _]; subst. exists err. exact Herr.
Qed.

Lemma GetAccessToken_same_values (t : TokenUpdater) (w w' : World) :
  values w' = values w ->
  fst (GetAccessToken t w') = fst (GetAccessToken t w).
Proof.
  intros H. unfold GetAccessToken, bind, Value_Load. rewrite H.
  destruct (accessToken t) as [a|]; [destruct (values w !! a)|]; reflexivity.
Qed.

(** X5. No backoff.  While the token is due and every answer of the
    endpoint is a failure, [k] turns of the loop send [k] POSTs and take
    no time at all: the clock stands still, the cells are untouched,
    [GetAccessToken] answers as before and the loop is still running. *)
Theorem failing_endpoint_spins
        (k : nat) (t : TokenUpdater) (b : nat) (e : Z) (w : World) :
  chan_try_recv (quitSignal t) w = (Ret None, w) ->
  ExpireTimestamp t = Some b ->
  int64s w !! b = Some e ->
  sub64 e (Time_Unix (now w)) <= ExpiryDelta_Seconds ->
  Forall (fun r => is_Some (answer_error json_Unmarshal r)) (network w) ->
  fst (checkAccessToken k t w) = Ret None
  /\ posts (snd (checkAccessToken k t w)) = (posts w + k)%nat
  /\ now (snd (checkAccessToken k t w)) = now w
  /\ values (snd (checkAccessToken k t w)) = values w
  /\ int64s (snd (checkAccessToken k t w)) = int64s w
  /\ fst (GetAccessToken t (snd (checkAccessToken k t w))) = fst (GetAccessToken t w).
Proof.
  intros Hq Hb. revert w Hq.
  cut (forall w, chan_try_recv (quitSignal t) w = (Ret None, w) ->
         int64s w !! b = Some e ->
         sub64 e (Time_Unix (now w)) <= ExpiryDelta_Seconds ->
         Forall (fun r => is_Some (answer_error json_Unmarshal r)) (network w) ->
         fst (checkAccessToken k t w) = Ret None
         /\ posts (snd (checkAccessToken k t w)) = (posts w + k)%nat
         /\ now (snd (checkAccessToken k t w)) = now w
         /\ values (snd (checkAccessToken k t w)) = values w
         /\ int64s (snd (checkAccessToken k t w)) = int64s w).
  { intros H w Hq Hi Hle Hall. destruct (H w Hq Hi Hle Hall) as (H1 & H2 & H3 & H4 & H5).
    repeat split; try assumption. apply GetAccessToken_same_values. exact H4. }
  induction k as [|k IH]; intros w Hq Hi Hle Hall.
  - simpl. repeat split. lia.
  - destruct (failing_next w Hall) as [err Herr].
    destruct (fetchNewToken_no_token json_Unmarshal t w
                (answer_error_no_token json_Unmarshal _ _ Herr))
      as (Hres & Hv & Hi' & Hn & Hc & Hnet).
    pose proof (fetchNewToken_posts json_Unmarshal t w) as Hp.
    pose proof (turn_fetches json_Unmarshal ExpiryDelta_Seconds t b e w Hq Hb Hi Hle)
      as Hturn.
    rewrite Herr in Hres.
    destruct (fetchNewToken t w) as [o w1]; simpl in Hres, Hv, Hi', Hn, Hc, Hnet, Hp.
    subst o.
    set (w2 := emit (EvLog Err (Error err)) w1).
    assert (Hstep : checkAccessToken (S k) t w = checkAccessToken k t w2).
    { change (checkAccessToken (S k) t w)
        with (bind (checkAccessToken_turn t)
                   (fun r => match r with
                             | Stop => ret (Some tt)
                             | Again => checkAccessToken k t
                             end) w).
      unfold bind at 1. rewrite Hturn. reflexivity. }
    rewrite Hstep.
    destruct (IH w2) as (H1 & H2 & H3 & H4 & H5).
    + apply (try_recv_none_same_chans _ w); [exact Hc|exact Hq].
    + simpl. rewrite Hi'. exact Hi.
    + simpl. rewrite Hn. exact Hle.
    + simpl. rewrite Hnet. destruct (network w); [constructor|].
      inversion Hall; assumption.
    + split; [exact H1|]. split.
      * rewrite H2. unfold w2. rewrite posts_emit_other by reflexivity. lia.
      * split; [rewrite H3; exact Hn|]. split; [rewrite H4; exact Hv|].
        rewrite H5. exact Hi'.
Qed.

(** ** The stop signal *)

(** X6. A stop signal waiting on the refresher's channel is seen before
    anything else: the loop returns in its first turn, whether or not the
    token is due, having sent no POST, used no answer of the endpoint,
    touched no cell and taken no time; it takes one signal from the channel
    and logs the stop. *)
Theorem stop_signal_comes_first (fuel : nat) (t : TokenUpdater) (c : nat)
        (v : bool) (q : list bool) (w : World) :
  quitSignal t = chan_at c ->
  chans w !! c = Some (v :: q) ->
  fst (checkAccessToken (S fuel) t w) = Ret (Some tt)
  /\ posts (snd (checkAccessToken (S fuel) t w)) = posts w
  /\ network (snd (checkAccessToken (S fuel) t w)) = network w
  /\ values (snd (checkAccessToken (S fuel) t w)) = values w
  /\ int64s (snd (checkAccessToken (S fuel) t w)) = int64s w
  /\ now (snd (checkAccessToken (S fuel) t w)) = now w
  /\ chans (snd (checkAccessToken (S fuel) t w)) = <[c := q]> (chans w)
  /\ trace (snd (checkAccessToken (S fuel) t w))
     = (trace w ++ [EvLog Info "Received signal to stop token updates."])%list.
Proof.
  intros Hq Hc.
  destruct (loop_exits_on_signal json_Unmarshal ExpiryDelta_Seconds fuel t c v q w Hq Hc)
    as [Heq Hp].
  rewrite Heq. simpl. repeat split. rewrite Heq in Hp. exact Hp.
Qed.

(** ** Serving the token *)

(** X7. On allocated cells, once a fetch has brought a token,
    [GetAccessToken] returns that token, whatever the cell held before; the
    token is not the empty string, and reading it changes nothing. *)
Theorem fetched_token_is_served
        (t : TokenUpdater) (a b : nat) (v : any) (e : Z)
        (r : AccessTokenResponse) (w : World) :
  accessToken t = Some a -> ExpireTimestamp t = Some b ->
  values w !! a = Some v -> int64s w !! b = Some e ->
  answer_token json_Unmarshal (next_answer w) = Some r ->
  GetAccessToken t (snd (fetchNewToken t w))
    = (Ret (AccessToken r), snd (fetchNewToken t w))
  /\ AccessToken r <> "".
Proof.
  intros Ha Hb Hv Hi Hr.
  destruct (fetchNewToken_publishes json_Unmarshal t a b v e r w Ha Hb Hv Hi Hr)
    as (_ & Hval & _).
  split.
  - rewrite (GetAccessToken_cell t _ a _ Ha Hval). reflexivity.
  - unfold answer_token in Hr.
    destruct (next_answer w) as [err|[bytes|err] ce]; try discriminate.
    destruct (json_Unmarshal bytes) as [r'|]; [|discriminate].
    destruct (decide (AccessToken r' <> "")) as [Hne|]; [|discriminate].
    injection Hr as <-. exact Hne.
Qed.

End RefresherCycle.

(** ** Building the client *)

Section ClientConstruction.

Variable json_Unmarshal : string -> option AccessTokenResponse.
Variable HttpClient : Type.
Variable NewHttpClient : HttpClientConfig -> HttpClient + error.

Abbreviation NewSellingPartnerClient :=
  (NewSellingPartnerClient json_Unmarshal HttpClient NewHttpClient).

(** The configuration [NewSellingPartnerClient] hands to
    [NewTokenUpdater]. *)
Lemma client_fetch (config : Config) (w : World) :
  exists cfg,
    cfg = {| RefreshToken := c_RefreshToken config; ClientID := c_ClientID config;
             ClientSecret := c_ClientSecret config; cfg_Logger := c_Log config;
             QuitSignal := chan_nil |}
    /\ NewSellingPartnerClient config w =
       bind (NewTokenUpdater json_Unmarshal cfg)
            (fun r =>
               match r with
               | (Some t, None) =>
                   bind (RunInBackground t)
                        (fun _ =>
                           match NewHttpClient
                                   {| h_Endpoint := c_Endpoint config;
                                      h_TokenUpdater := t;
                                      h_IAMUserAccessKeyID := c_IAMUserAccessKeyID config;
                                      h_IAMUserSecretKey := c_IAMUserSecretKey config;
                                      h_Region := c_Region config;
                                      h_RoleArn := c_RoleArn config |} with
                           | inr err => ret (None, Some err)
                           | inl httpClient =>
                               ret (Some {| s_quitSignal := chan_at (length (chans w));
                                            Report := httpClient |}, None)
                           end)
               | (_, Some err) => ret (None, Some err)
               | (None, None) => panic nil_deref
               end)
            (set_chans (chans w ++ [[]])%list w).
Proof. eexists. split; reflexivity. Qed.

(** X8. When the initial fetch fails, [NewSellingPartnerClient] returns no
    client and the error of [NewTokenUpdater] as it is, wrapping the error
    of the fetch once; the one POST was sent and no background loop was
    started. *)
Theorem client_not_built_on_fetch_error (config : Config) (w : World) (err : error) :
  answer_error json_Unmarshal (next_answer w) = Some err ->
  fst (NewSellingPartnerClient config w)
    = Ret (None, Some (Errorf_w "accesstoken could not be fetched: " err))
  /\ goroutines (snd (NewSellingPartnerClient config w)) = goroutines w
  /\ posts (snd (NewSellingPartnerClient config w)) = S (posts w).
Proof.
  intros Herr. destruct (client_fetch config w) as (cfg & _ & ->).
  set (w0 := set_chans (chans w ++ [[]])%list w).
  assert (Herr0 : answer_error json_Unmarshal (next_answer w0) = Some err) by exact Herr.
  destruct (NewTokenUpdater_outcome json_Unmarshal cfg w0) as [Hres Hw].
  pose proof (proj2 (fetchNewToken_error_iff json_Unmarshal (fresh_updater cfg)
                       w0 err) Herr0) as Hf.
  rewrite Hf in Hres.
  pose proof (fetchNewToken_posts json_Unmarshal (fresh_updater cfg) w0) as Hp.
  pose proof (fetchNewToken_trace_goroutines json_Unmarshal (fresh_updater cfg) w0) as Hg.
  unfold bind.
  destruct (NewTokenUpdater json_Unmarshal cfg w0) as [o w1]; simpl in Hres, Hw.
  subst o w1. simpl. repeat split; assumption.
Qed.

(** X9. When the initial fetch returns without an error but
    [NewHttpClient] fails, [NewSellingPartnerClient] returns no client and
    that error; the background loop has been started all the same, on the
    refresher just built. *)
Theorem loop_started_before_http_client (config : Config) (w : World) (err : error) :
  answer_error json_Unmarshal (next_answer w) = None ->
  answer_token json_Unmarshal (next_answer w) = None ->
  (forall httpConfig, NewHttpClient httpConfig = inr err) ->
  fst (NewSellingPartnerClient config w) = Ret (None, Some err)
  /\ exists t, goroutines (snd (NewSellingPartnerClient config w))
               = (goroutines w ++ [t])%list
               /\ quitSignal t = chan_nil
               /\ accessToken t = None.
Proof.
  intros Herr Htok Hhttp. destruct (client_fetch config w) as (cfg & Hcfg & ->).
  set (w0 := set_chans (chans w ++ [[]])%list w).
  assert (Htok0 : answer_token json_Unmarshal (next_answer w0) = None) by exact Htok.
  destruct (NewTokenUpdater_outcome json_Unmarshal cfg w0) as [Hres Hw].
  destruct (fetchNewToken_no_token json_Unmarshal (fresh_updater cfg) w0 Htok0)
    as (Hf & _).
  change (next_answer w0) with (next_answer w) in Hf. rewrite Herr in Hf.
  rewrite Hf in Hres.
  pose proof (fetchNewToken_trace_goroutines json_Unmarshal (fresh_updater cfg) w0) as Hg.
  unfold bind.
  destruct (NewTokenUpdater json_Unmarshal cfg w0) as [o w1]; simpl in Hres, Hw.
  subst o w1. cbv beta iota. unfold RunInBackground. rewrite Hhttp. simpl.
  split; [reflexivity|]. exists (fresh_updater cfg). rewrite Hg.
  split; [reflexivity|]. rewrite Hcfg. split; reflexivity.
Qed.

(** X15. The credentials of the client's configuration reach the token
    endpoint under their own keys: whatever the outcome, the first thing
    [NewSellingPartnerClient] lets out is the POST holding its client id,
    client secret and refresh token, and nothing but log lines follows. *)
Theorem client_credentials_reach_endpoint (conf : Config) (w : World) :
  exists rest,
    trace (snd (NewSellingPartnerClient conf w)) =
      (trace w ++
       EvPost "https://api.amazon.com/auth/o2/token" "application/json"
              [ ("client_id", c_ClientID conf);
                ("client_secret", c_ClientSecret conf);
                ("grant_type", "refresh_token");
                ("refresh_token", c_RefreshToken conf) ]
       :: rest)%list
    /\ Forall (fun ev => exists lvl text, ev = EvLog lvl text) rest.
Proof.
  destruct (client_fetch conf w) as (cfg & Hcfg & ->).
  set (w0 := set_chans (chans w ++ [[]])%list w).
  destruct (NewTokenUpdater_outcome json_Unmarshal cfg w0) as [Hres Hw].
  pose proof (fetchNewToken_lets_out json_Unmarshal (fresh_updater cfg) w0) as Htr.
  rewrite <- Hw in Htr. subst cfg.
  cbn [config fresh_updater ClientID ClientSecret RefreshToken] in Htr.
  exists (match next_answer w0 with
          | post_response _ (Some close_err) => [EvLog Err (Error close_err)]
          | _ => []
          end).
  split.
  - unfold bind.
    destruct (NewTokenUpdater json_Unmarshal _ w0) as [[[[t|] [err|]]|m] w1];
      simpl in Htr |- *; try exact Htr.
    unfold RunInBackground.
    match goal with
    | |- context [NewHttpClient ?c] => destruct (NewHttpClient c)
    end; simpl; exact Htr.
  - destruct (next_answer w0) as [?|? [ce|]]; repeat constructor.
    eexists; eexists; reflexivity.
Qed.

End ClientConstruction.

(** ** The theorems above on sample worlds *)

Lemma fetchNewToken_error_keeps_state_witness :
  let t := allocated_updater chan_nil in
  let w := allocated_world (any_string "Atza|old") 1700000030
             [post_failed (errors_New "dial tcp: timeout")] in
  values (snd (fetchNewToken sample_Unmarshal t w)) = values w
  /\ int64s (snd (fetchNewToken sample_Unmarshal t w)) = int64s w
  /\ now (snd (fetchNewToken sample_Unmarshal t w)) = now w
  /\ chans (snd (fetchNewToken sample_Unmarshal t w)) = chans w
  /\ posts (snd (fetchNewToken sample_Unmarshal t w)) = S (posts w)
  /\ answer_error sample_Unmarshal (next_answer w)
     = Some (errors_New "dial tcp: timeout").
Proof.
  intros t w.
  exact (fetchNewToken_error_keeps_state sample_Unmarshal t w
           (errors_New "dial tcp: timeout") eq_refl).
Defined.

Lemma fresh_token_lasts_expires_in_witness :
  let t := allocated_updater chan_nil in
  let w := allocated_world (any_string "Atza|old") 1700000030
             [post_response (inl token_body) None] in
  int64s (snd (fetchNewToken sample_Unmarshal t w)) !! 0%nat = Some 1700003600
  /\ fst (secondsUntilExpired 1700003600 (snd (fetchNewToken sample_Unmarshal t w)))
     = Ret 3600.
Proof.
  intros t w.
  apply (fresh_token_lasts_expires_in sample_Unmarshal t 0%nat 0%nat
           (any_string "Atza|old") 1700000030 token_response w);
    first [ reflexivity
          | vm_compute; discriminate
          | split; vm_compute; discriminate ].
Defined.

Lemma loop_refreshes_at_delta_witness :
  let t := allocated_updater (chan_at 0) in
  let w := allocated_world (any_string "Atza|old") 1700003600
             [post_response (inl token_body) None] in
  let w1 := snd (checkAccessToken_turn sample_Unmarshal 60 t w) in
  let w2 := snd (checkAccessToken_turn sample_Unmarshal 60 t w1) in
  posts w1 = posts w
  /\ now w1 = now w + (1700003600 - now w `div` Second - 60) * Second
  /\ fst (secondsUntilExpired 1700003600 w1) = Ret 60
  /\ posts w2 = S (posts w).
Proof.
  intros t w.
  apply (loop_refreshes_at_delta sample_Unmarshal 60 t 0%nat 1700003600 w);
    first [ reflexivity
          | vm_compute; discriminate
          | split; vm_compute; discriminate ].
Defined.

Lemma expired_token_fetches_at_once_witness :
  let t := allocated_updater (chan_at 0) in
  let w := allocated_world (any_string "Atza|old") 1699999000
             [post_failed (errors_New "dial tcp: timeout")] in
  posts (snd (checkAccessToken_turn sample_Unmarshal 60 t w)) = S (posts w)
  /\ now (snd (checkAccessToken_turn sample_Unmarshal 60 t w)) = now w
  /\ fst (secondsUntilExpired 1699999000 w) = Ret (-1000).
Proof.
  intros t w.
  apply (expired_token_fetches_at_once sample_Unmarshal 60 t 0%nat 1699999000 w);
    first [ reflexivity
          | vm_compute; discriminate
          | split; vm_compute; discriminate ].
Defined.

Lemma failing_endpoint_spins_witness :
  let t := allocated_updater (chan_at 0) in
  let w := allocated_world (any_string "Atza|old") 1700000030
             [post_failed (errors_New "dial tcp: timeout");
              post_response (inr (errors_New "unexpected EOF")) None] in
  fst (checkAccessToken sample_Unmarshal 60 5 t w) = Ret None
  /\ posts (snd (checkAccessToken sample_Unmarshal 60 5 t w)) = (posts w + 5)%nat
  /\ now (snd (checkAccessToken sample_Unmarshal 60 5 t w)) = now w
  /\ values (snd (checkAccessToken sample_Unmarshal 60 5 t w)) = values w
  /\ int64s (snd (checkAccessToken sample_Unmarshal 60 5 t w)) = int64s w
  /\ fst (GetAccessToken t (snd (checkAccessToken sample_Unmarshal 60 5 t w)))
     = fst (GetAccessToken t w).
Proof.
  intros t w.
  apply (failing_endpoint_spins sample_Unmarshal 60 5 t 0%nat 1700000030 w).
  - reflexivity.
  - reflexivity.
  - reflexivity.
  - vm_compute. discriminate.
  - repeat constructor; eexists; reflexivity.
Defined.

Lemma stop_signal_comes_first_witness :
  let t := allocated_updater (chan_at 0) in
  let w := snd (chan_send (chan_at 0) true
                  (allocated_world (any_string "Atza|old") 1700000030
                     [post_response (inl token_body) None])) in
  fst (checkAccessToken sample_Unmarshal 60 1 t w) = Ret (Some tt)
  /\ posts (snd (checkAccessToken sample_Unmarshal 60 1 t w)) = posts w
  /\ network (snd (checkAccessToken sample_Unmarshal 60 1 t w)) = network w.
Proof.
  intros t w.
  destruct (stop_signal_comes_first sample_Unmarshal 60 0 t 0%nat true [] w
              eq_refl eq_refl) as (H1 & H2 & H3 & _).
  split; [exact H1|]. split; [exact H2|exact H3].
Defined.

Lemma fetched_token_is_served_witness :
  let t := allocated_updater chan_nil in
  let w := allocated_world (any_string "Atza|old") 1700000030
             [post_response (inl token_body) None] in
  fst (GetAccessToken t (snd (fetchNewToken sample_Unmarshal t w))) = Ret "Atza|fresh".
Proof.
  intros t w.
  destruct (fetched_token_is_served sample_Unmarshal t 0%nat 0%nat
              (any_string "Atza|old") 1700000030 token_response w
              eq_refl eq_refl eq_refl eq_refl eq_refl) as [H _].
  rewrite H. reflexivity.
Defined.

Lemma client_not_built_on_fetch_error_witness :
  fst (NewSellingPartnerClient sample_Unmarshal unit (fun _ => inl tt)
         sample_client_config
         (world_with [post_failed (errors_New "dial tcp: timeout")]))
  = Ret (None, Some (Errorf_w "accesstoken could not be fetched: "
                              (errors_New "dial tcp: timeout"))).
Proof.
  exact (proj1 (client_not_built_on_fetch_error sample_Unmarshal unit
                  (fun _ => inl tt) sample_client_config
                  (world_with [post_failed (errors_New "dial tcp: timeout")])
                  (errors_New "dial tcp: timeout") eq_refl)).
Defined.

Lemma loop_started_before_http_client_witness :
  fst (NewSellingPartnerClient sample_Unmarshal unit
         (fun _ => inr (errors_New "unknown region"))
         sample_client_config
         (world_with [post_response (inl denied_body) None]))
  = Ret (None, Some (errors_New "unknown region")).
Proof.
  exact (proj1 (loop_started_before_http_client sample_Unmarshal unit
                  (fun _ => inr (errors_New "unknown region")) sample_client_config
                  (world_with [post_response (inl denied_body) None])
                  (errors_New "unknown region") eq_refl eq_refl
                  (fun _ => eq_refl))).
Defined.

(** * Properties of the call executor *)

Import CallExecutor.

(** ** Percent-encoding can be undone *)

Lemma hex_digits_decode (c : Ascii.ascii) :
  unhex (hex_digit (Ascii.N_of_ascii c / 16)) = Some (Ascii.N_of_ascii c / 16)%N
  /\ unhex (hex_digit (Ascii.N_of_ascii c `mod` 16))
     = Some (Ascii.N_of_ascii c `mod` 16)%N
  /\ Ascii.ascii_of_N (16 * (Ascii.N_of_ascii c / 16) + Ascii.N_of_ascii c `mod` 16)
     = c.
Proof.
  destruct c as [[] [] [] [] [] [] [] []]; vm_compute; repeat split.
Qed.

Lemma unreserved_not_percent (c : Ascii.ascii) :
  unreserved c = true -> Ascii.eqb c percent = false.
Proof.
  destruct c as [[] [] [] [] [] [] [] []]; vm_compute; intros H;
    first [reflexivity | discriminate H].
Qed.

Lemma hex_digit_unreserved (c : Ascii.ascii) :
  unreserved (hex_digit (Ascii.N_of_ascii c / 16)) = true
  /\ unreserved (hex_digit (Ascii.N_of_ascii c `mod` 16)) = true.
Proof.
  destruct c as [[] [] [] [] [] [] [] []]; vm_compute; split; reflexivity.
Qed.

Lemma percent_decode_encode (s : string) :
  percent_decode (percent_encode s) = Some s.
Proof.
  induction s as [|c s IH]; [reflexivity|]. simpl.
  destruct (unreserved c) eqn:Hc.
  - simpl. rewrite (unreserved_not_percent c Hc), IH. reflexivity.
  - destruct (hex_digits_decode c) as (Hhi & Hlo & Hc').
    cbn [percent_decode]. change (Ascii.eqb percent percent) with true.
    cbv iota. rewrite Hhi, Hlo, IH, Hc'. reflexivity.
Qed.

Lemma percent_encode_safe (s : string) :
  all_chars url_safe (percent_encode s) = true.
Proof.
  induction s as [|c s IH]; [reflexivity|]. cbn [percent_encode].
  destruct (unreserved c) eqn:Hc; cbn [all_chars].
  - unfold url_safe at 1. rewrite Hc, IH. reflexivity.
  - destruct (hex_digit_unreserved c) as [Hhi Hlo].
    unfold url_safe at 2 3. rewrite Hhi, Hlo, IH. reflexivity.
Qed.

(** A character that is neither unreserved nor [%] does not occur in a
    string of safe characters. *)
Lemma safe_chars_avoid (sep : Ascii.ascii) (s : string) :
  url_safe sep = false -> all_chars url_safe s = true -> occurs sep s = false.
Proof.
  intros Hsep. induction s as [|c s IH]; [reflexivity|]. simpl.
  intros H. apply andb_prop in H as [Hc Hs]. rewrite (IH Hs), orb_false_r.
  destruct (Ascii.eqb_spec c sep) as [->|]; [congruence|reflexivity].
Qed.

Lemma occurs_app (c : Ascii.ascii) (x y : string) :
  occurs c (x ++ y) = occurs c x || occurs c y.
Proof.
  induction x as [|c' x IH]; [reflexivity|]. simpl. rewrite IH, orb_assoc.
  reflexivity.
Qed.

(** ** Splitting what was joined *)

Lemma split_on_absent (sep : Ascii.ascii) (x : string) :
  occurs sep x = false -> split_on sep x = [x].
Proof.
  induction x as [|c x IH]; [reflexivity|]. simpl. intros H.
  apply orb_false_elim in H as [Hc Hx]. rewrite Hc, (IH Hx). reflexivity.
Qed.

Lemma split_on_first (sep : Ascii.ascii) (x y : string) :
  occurs sep x = false ->
  split_on sep (x ++ String sep y) = x :: split_on sep y.
Proof.
  induction x as [|c x IH]; simpl.
  - intros _. rewrite Ascii.eqb_refl. reflexivity.
  - intros H. apply orb_false_elim in H as [Hc Hx]. rewrite Hc, (IH Hx).
    reflexivity.
Qed.

Lemma split_on_join (sep : Ascii.ascii) (l : list string) :
  l <> [] ->
  Forall (fun x => occurs sep x = false) l ->
  split_on sep (join_with sep l) = l.
Proof.
  induction l as [|x l IH]; [congruence|]. intros _ Hall.
  inversion Hall as [|? ? Hx Hl]; subst.
  destruct l as [|y l]; [apply split_on_absent; exact Hx|].
  change (join_with sep (x :: y :: l))
    with (x ++ String sep (join_with sep (y :: l))).
  rewrite (split_on_first sep x _ Hx), IH; [reflexivity|discriminate|exact Hl].
Qed.

(** ** The query string *)

Lemma decode_encode_entry (kv : string * string) :
  decode_entry (encode_entry kv) = Some kv.
Proof.
  destruct kv as [k v]. unfold decode_entry, encode_entry. simpl.
  rewrite split_on_first
    by (apply safe_chars_avoid; [reflexivity|apply percent_encode_safe]).
  rewrite split_on_absent
    by (apply safe_chars_avoid; [reflexivity|apply percent_encode_safe]).
  rewrite !percent_decode_encode. reflexivity.
Qed.

Lemma encode_entry_no_sep (sep : Ascii.ascii) (kv : string * string) :
  url_safe sep = false -> Ascii.eqb "="%char sep = false ->
  occurs sep (encode_entry kv) = false.
Proof.
  intros Hsafe Heq. unfold encode_entry. rewrite occurs_app.
  cbn [occurs]. rewrite Heq.
  rewrite !(safe_chars_avoid sep) by (try exact Hsafe; apply percent_encode_safe).
  reflexivity.
Qed.

Lemma join_with_no_sep (c sep : Ascii.ascii) (l : list string) :
  Ascii.eqb sep c = false ->
  Forall (fun x => occurs c x = false) l ->
  occurs c (join_with sep l) = false.
Proof.
  intros Hsep. induction l as [|x l IH]; [reflexivity|]. intros Hall.
  inversion Hall as [|? ? Hx Hl]; subst.
  destruct l as [|y l]; [exact Hx|].
  change (join_with sep (x :: y :: l))
    with (x ++ String sep (join_with sep (y :: l))).
  rewrite occurs_app. cbn [occurs]. rewrite Hx, Hsep, (IH Hl). reflexivity.
Qed.

Lemma encode_query_nonempty (kv : string * string) (params : list (string * string)) :
  encode_query (kv :: params) <> "".
Proof.
  unfold encode_query. intros H.
  assert (Hocc : occurs "="%char (join_with "&"%char
                   (map encode_entry (kv :: params))) = true).
  { cbn [map]. destruct (map encode_entry params) as [|y l].
    - cbn [join_with]. unfold encode_entry. rewrite occurs_app. cbn [occurs].
      change (Ascii.eqb "="%char "="%char) with true. apply orb_true_r.
    - change (join_with "&"%char (encode_entry kv :: y :: l))
        with (encode_entry kv ++ String "&"%char (join_with "&"%char (y :: l))).
      rewrite occurs_app. unfold encode_entry at 1. rewrite occurs_app.
      cbn [occurs]. change (Ascii.eqb "="%char "="%char) with true.
      rewrite orb_true_r. reflexivity. }
  rewrite H in Hocc. discriminate Hocc.
Qed.

Lemma mapM_decode_encode (params : list (string * string)) :
  mapM decode_entry (map encode_entry params) = Some params.
Proof.
  induction params as [|kv params IH]; [reflexivity|].
  simpl. rewrite decode_encode_entry. simpl. rewrite IH. reflexivity.
Qed.

Lemma decode_encode_query (params : list (string * string)) :
  decode_query (encode_query params) = Some params.
Proof.
  destruct params as [|kv params]; [reflexivity|].
  unfold decode_query.
  destruct (decide (encode_query (kv :: params) = "")) as [H|_];
    [destruct (encode_query_nonempty kv params H)|].
  unfold encode_query. rewrite split_on_join.
  - apply mapM_decode_encode.
  - discriminate.
  - apply Forall_forall. intros x Hx. apply list_elem_of_In in Hx.
    apply in_map_iff in Hx as (p & <- & _).
    apply encode_entry_no_sep; reflexivity.
Qed.

(** ** The request and the response *)

(** [Execute] hands the transport the request [build_request] makes, and
    nothing else of the call reaches it. *)
Lemma Execute_hands_request (T : Type) (decode_T : string -> option T)
      (decode_ErrorList : string -> option ErrorList) (hdr : string)
      (c : Call) (tr tr' : Transport) :
  GetEndpoint tr' = GetEndpoint tr ->
  Do tr' (build_request hdr (GetEndpoint tr) c)
    = Do tr (build_request hdr (GetEndpoint tr) c) ->
  Execute T decode_T decode_ErrorList hdr c tr'
    = Execute T decode_T decode_ErrorList hdr c tr.
Proof. intros He Hd. unfold Execute. rewrite He, Hd. reflexivity. Qed.

(** C9. For a call whose base URL and path hold no [?]: the URL of the
    request handed to the transport is the base URL followed by the path;
    without query parameters nothing is appended and the URL holds no [?];
    with query parameters a [?] and the query string follow, and the query
    string reads back, entry by entry and in the order supplied, as the
    parameters of the call, itself holding no [?]. *)
Theorem request_url_reflects_call (hdr : string) (c : Call) (tr : Transport) :
  occurs "?"%char (GetEndpoint tr) = false ->
  occurs "?"%char (path c) = false ->
  let req := build_request hdr (GetEndpoint tr) c in
  (queryParams c = [] ->
     req_URL req = GetEndpoint tr ++ path c
     /\ occurs "?"%char (req_URL req) = false)
  /\ (queryParams c <> [] ->
        req_URL req
          = GetEndpoint tr ++ path c ++ String "?"%char (encode_query (queryParams c))
        /\ encode_query (queryParams c)
           = join_with "&"%char
               (map (fun kv => percent_encode (fst kv) ++
                               String "="%char (percent_encode (snd kv)))
                    (queryParams c))
        /\ decode_query (encode_query (queryParams c)) = Some (queryParams c)
        /\ occurs "?"%char (encode_query (queryParams c)) = false).
Proof.
  intros Hbase Hpath req. subst req. unfold build_request, request_url. simpl.
  split.
  - intros ->. split; [reflexivity|]. rewrite occurs_app, Hbase, Hpath. reflexivity.
  - intros Hne. destruct (queryParams c) as [|kv params] eqn:Hq; [congruence|].
    split; [reflexivity|]. split; [reflexivity|].
    split; [apply decode_encode_query|].
    unfold encode_query. apply join_with_no_sep; [reflexivity|].
    apply Forall_forall. intros x Hx. apply list_elem_of_In in Hx.
    apply in_map_iff in Hx as (p & <- & _).
    apply encode_entry_no_sep; reflexivity.
Qed.

Lemma request_url_reflects_call_witness :
  req_URL (build_request "x-amz-access-token" NorthAmerica message_call)
  = "https://sellingpartnerapi-na.amazon.com/message?final=true"
  /\ decode_query "final=true" = Some [("final", "true")].
Proof.
  destruct (request_url_reflects_call "x-amz-access-token" message_call
              (answering 200 "") eq_refl eq_refl) as [_ H].
  destruct H as (Hurl & _ & Hdec & _); [discriminate|].
  split; [exact Hurl|exact Hdec].
Defined.

(** C8. A [CallResponse] that [Execute] returns never carries both the
    success payload and the error list, and carries neither exactly when
    the transport answered with an empty body and a status of the 2xx
    class. *)
Theorem CallResponse_one_of (T : Type) (decode_T : string -> option T)
        (decode_ErrorList : string -> option ErrorList) (hdr : string)
        (c : Call) (tr : Transport) (cr : CallResponse T) :
  Execute T decode_T decode_ErrorList hdr c tr = inl cr ->
  ~ (is_Some (ResponseBody T cr) /\ is_Some (ResponseErrorList T cr))
  /\ ((ResponseBody T cr = None /\ ResponseErrorList T cr = None)
      <-> exists resp,
            Do tr (build_request hdr (GetEndpoint tr) c) = inl resp
            /\ resp_Body resp = ""
            /\ is_success (StatusCode resp) = true).
Proof.
  unfold Execute. intros H.
  destruct (Do tr (build_request hdr (GetEndpoint tr) c)) as [resp|err];
    [|discriminate H].
  destruct (is_success (StatusCode resp)) eqn:Hs.
  - destruct (decide (resp_Body resp = "")) as [Hb|Hb].
    + injection H as <-. simpl. split.
      * intros [[x Hx] _]. discriminate Hx.
      * split; [intros _; exists resp; auto|auto].
    + destruct (decode_T (resp_Body resp)) as [v|]; [|discriminate H].
      injection H as <-. simpl. split.
      * intros [_ [x Hx]]. discriminate Hx.
      * split; [intros [Hn _]; discriminate Hn|].
        intros (resp' & Hr & Hb' & _). injection Hr as <-. contradiction.
  - destruct (parseErrorListOnError c); [|discriminate H].
    destruct (decode_ErrorList (resp_Body resp)) as [l|]; [|discriminate H].
    injection H as <-. simpl. split.
    + intros [[x Hx] _]. discriminate Hx.
    + split; [intros [_ Hn]; discriminate Hn|].
      intros (resp' & Hr & _ & Hs'). injection Hr as <-. congruence.
Qed.

Lemma CallResponse_one_of_witness :
  ~ (is_Some (@None unit) /\ is_Some (@None ErrorList))
  /\ ((@None unit = None /\ @None ErrorList = None)
      <-> exists resp,
            Do (answering 204 "")
               (build_request "x-amz-access-token" NorthAmerica delete_call) = inl resp
            /\ resp_Body resp = ""
            /\ is_success (StatusCode resp) = true).
Proof.
  exact (CallResponse_one_of unit decode_nothing decode_nothing "x-amz-access-token"
           delete_call (answering 204 "")
           {| ResponseBody := None; ResponseErrorList := None |} eq_refl).
Defined.

(** ** The scenarios of the executor's test *)

Example simple_get_url :
  req_URL (build_request "x-amz-access-token" NorthAmerica (NewCall "GET" "/message"))
  = "https://sellingpartnerapi-na.amazon.com/message".
Proof. reflexivity. Qed.

Example percent_encode_reserved :
  percent_encode "a b&c=d?" = "a%20b%26c%3Dd%3F"
  /\ percent_decode "a%20b%26c%3Dd%3F" = Some "a b&c=d?".
Proof. split; reflexivity. Qed.

Example entries_keep_their_order :
  encode_query [("b", "2"); ("a", "1"); ("b", "3")] = "b=2&a=1&b=3".
Proof. reflexivity. Qed.

Example delete_without_body :
  Execute unit decode_nothing decode_oops "x-amz-access-token" delete_call
          (answering 200 "")
  = inl {| ResponseBody := None; ResponseErrorList := None |}.
Proof. reflexivity. Qed.

Example error_case :
  Execute unit decode_nothing decode_oops "x-amz-access-token"
          (WithParseErrorListOnError true delete_call) (answering 500 oops_body)
  = inl {| ResponseBody := None; ResponseErrorList := Some oops_list |}.
Proof. reflexivity. Qed.

Example error_case_unparsed :
  Execute unit decode_nothing decode_oops "x-amz-access-token" delete_call
          (answering 500 oops_body)
  = inr (StatusError 500).
Proof. reflexivity. Qed.

(** * Properties of the report filter *)

Section ReportFilterFacts.

Variable JsonTimeISO8601 : Type.
Variable JsonTime_String : JsonTimeISO8601 -> string.

Abbreviation GetQuery := (GetQuery JsonTimeISO8601 JsonTime_String).

(** Each key is added once, to a map that does not hold it yet. *)
Lemma GetQuery_explicit (f : GetReportFilter JsonTimeISO8601) :
  GetQuery f =
    <[ "nextToken" := [nextToken _ f] ]>
    (<[ "createdUntil" := [JsonTime_String (createdUntil _ f)] ]>
    (<[ "createdSince" := [JsonTime_String (createdSince _ f)] ]>
    (<[ "pageSize" := [Sprint_int (pageSize _ f)] ]>
    (<[ "marketplaceIds" := [strings_Join (marketplaceIds _ f) ","] ]>
    (<[ "processingStatuses" := [strings_Join (processingStatuses _ f) ","] ]>
    (<[ "reportTypes" := [strings_Join (reportTypes _ f) ","] ]> ∅)))))).
Proof. unfold GetQuery, Values_Add. simplify_map_eq. reflexivity. Qed.

Lemma GetQuery_lookup (f : GetReportFilter JsonTimeISO8601) :
  GetQuery f !! "reportTypes" = Some [strings_Join (reportTypes _ f) ","]
  /\ GetQuery f !! "processingStatuses" = Some [strings_Join (processingStatuses _ f) ","]
  /\ GetQuery f !! "marketplaceIds" = Some [strings_Join (marketplaceIds _ f) ","]
  /\ GetQuery f !! "pageSize" = Some [Sprint_int (pageSize _ f)]
  /\ GetQuery f !! "createdSince" = Some [JsonTime_String (createdSince _ f)]
  /\ GetQuery f !! "createdUntil" = Some [JsonTime_String (createdUntil _ f)]
  /\ GetQuery f !! "nextToken" = Some [nextToken _ f].
Proof. rewrite GetQuery_explicit. repeat split; simplify_map_eq; reflexivity. Qed.

(** X10. Whatever the filter, also the zero filter, the query holds
    exactly the seven keys, each with exactly one value, and
    [url.Values.Get] of any other key is the empty string: a field that is
    not set is sent all the same, with its zero value as text. *)
Theorem GetQuery_sends_every_field (f : GetReportFilter JsonTimeISO8601) :
  dom (GetQuery f) = list_to_set query_keys
  /\ size (GetQuery f) = 7%nat
  /\ (forall k vs, GetQuery f !! k = Some vs -> length vs = 1%nat)
  /\ (forall k, k ∉ query_keys -> Values_Get k (GetQuery f) = "").
Proof.
  assert (Hdom : dom (GetQuery f) = list_to_set query_keys).
  { rewrite GetQuery_explicit. rewrite !dom_insert_L, dom_empty_L.
    unfold query_keys. simpl. set_solver. }
  split; [exact Hdom|]. split.
  - rewrite <- size_dom, Hdom. reflexivity.
  - split.
    + intros k vs. rewrite GetQuery_explicit.
      repeat (rewrite lookup_insert; case_decide;
              [intros [= <-]; reflexivity|]).
      rewrite lookup_empty. discriminate.
    + intros k Hk. unfold Values_Get.
      assert (Hnone : GetQuery f !! k = None).
      { apply not_elem_of_dom. rewrite Hdom. intros Hin.
        apply Hk. apply elem_of_list_to_set in Hin. exact Hin. }
      rewrite Hnone. reflexivity.
Qed.

Lemma strings_Join_comma (l : list string) :
  strings_Join l "," = join_with ","%char l.
Proof.
  induction l as [|x l IH]; [reflexivity|].
  destruct l as [|y l]; [reflexivity|].
  change (strings_Join (x :: y :: l) ",")
    with (x ++ "," ++ strings_Join (y :: l) ",").
  rewrite IH. reflexivity.
Qed.

Lemma joined_list_splits (l : list string) :
  l <> [] ->
  Forall (fun x => occurs ","%char x = false) l ->
  split_on ","%char (strings_Join l ",") = l.
Proof.
  intros Hne Hall. rewrite strings_Join_comma. apply split_on_join; assumption.
Qed.

(** X11. A list field goes out as one value, its elements joined by
    commas.  When the list is not empty and no element holds a comma,
    splitting the value at the commas gives the list back; the empty list
    goes out as the empty string. *)
Theorem GetQuery_lists_split_back (f : GetReportFilter JsonTimeISO8601) :
  (reportTypes _ f <> [] ->
   Forall (fun x => occurs ","%char x = false) (reportTypes _ f) ->
   split_on ","%char (Values_Get "reportTypes" (GetQuery f)) = reportTypes _ f)
  /\ (processingStatuses _ f <> [] ->
      Forall (fun x => occurs ","%char x = false) (processingStatuses _ f) ->
      split_on ","%char (Values_Get "processingStatuses" (GetQuery f))
      = processingStatuses _ f)
  /\ (marketplaceIds _ f <> [] ->
      Forall (fun x => occurs ","%char x = false) (marketplaceIds _ f) ->
      split_on ","%char (Values_Get "marketplaceIds" (GetQuery f))
      = marketplaceIds _ f)
  /\ (reportTypes _ f = [] -> Values_Get "reportTypes" (GetQuery f) = "")
  /\ (processingStatuses _ f = [] ->
      Values_Get "processingStatuses" (GetQuery f) = "")
  /\ (marketplaceIds _ f = [] -> Values_Get "marketplaceIds" (GetQuery f) = "").
Proof.
  destruct (GetQuery_lookup f) as (H1 & H2 & H3 & _).
  unfold Values_Get. rewrite H1, H2, H3.
  repeat split; try (intros; apply joined_list_splits; assumption);
    intros ->; reflexivity.
Qed.

(** X12. The page size is never lost: filters with different page sizes
    give different queries, the decimal text of a number naming it. *)
Theorem GetQuery_tells_page_sizes_apart (f g : GetReportFilter JsonTimeISO8601) :
  pageSize _ f <> pageSize _ g -> GetQuery f <> GetQuery g.
Proof.
  intros Hne Heq. apply Hne.
  destruct (GetQuery_lookup f) as (_ & _ & _ & Hf & _).
  destruct (GetQuery_lookup g) as (_ & _ & _ & Hg & _).
  rewrite Heq, Hg in Hf. injection Hf as Hf.
  unfold Sprint_int in Hf. symmetry. apply (inj pretty). exact Hf.
Qed.

Lemma string_app_assoc (a b c : string) : (a ++ b) ++ c = a ++ (b ++ c).
Proof.
  induction a as [|ch a IH]; [reflexivity|].
  change (String ch ((a ++ b) ++ c) = String ch (a ++ (b ++ c))).
  rewrite IH. reflexivity.
Qed.

(** X13. The joining loses the boundaries of elements that hold a comma,
    and the difference between no element and one empty element: such
    filters give the same query. *)
Theorem GetQuery_merges_list_elements
        (x y : string) (l ps ms : list string) (n : Z)
        (since until : JsonTimeISO8601) (next : string) :
  GetQuery (mkGetReportFilter _ (x :: y :: l) ps ms n since until next)
  = GetQuery (mkGetReportFilter _ ((x ++ "," ++ y) :: l) ps ms n since until next)
  /\ GetQuery (mkGetReportFilter _ [] ps ms n since until next)
     = GetQuery (mkGetReportFilter _ [""] ps ms n since until next).
Proof.
  rewrite !GetQuery_explicit. simpl. split; [|reflexivity].
  destruct l as [|z l]; simpl.
  - reflexivity.
  - rewrite string_app_assoc. reflexivity.
Qed.

End ReportFilterFacts.

Lemma GetQuery_tells_page_sizes_apart_witness :
  GetQuery string id (sample_filter 10) <> GetQuery string id (sample_filter 100).
Proof.
  apply (GetQuery_tells_page_sizes_apart string id (sample_filter 10)
           (sample_filter 100)).
  discriminate.
Defined.

Example sample_filter_query :
  Values_Get "reportTypes" (GetQuery string id (sample_filter 10))
  = "GET_MERCHANT_LISTINGS_ALL_DATA,GET_FLAT_FILE_OPEN_LISTINGS_DATA"
  /\ Values_Get "marketplaceIds" (GetQuery string id (sample_filter 10)) = ""
  /\ Values_Get "pageSize" (GetQuery string id (sample_filter (-3))) = "-3"
  /\ Values_Get "nextToken" (GetQuery string id (sample_filter 10)) = ""
  /\ Values_Get "limit" (GetQuery string id (sample_filter 10)) = "".
Proof.
  destruct (GetQuery_lookup string id (sample_filter 10)) as (H1 & _ & H3 & _ & _ & _ & H7).
  destruct (GetQuery_lookup string id (sample_filter (-3))) as (_ & _ & _ & H4 & _).
  unfold Values_Get. rewrite H1, H3, H4, H7.
  repeat split.
Qed.
